(** * Ceramic stamp generator: the SVG -> STL conversion pipeline

    A shallow embedding of [converter/convert.py] and of the parameter
    gate of [backend/main.py].

    Conventions of the embedding.
    - Python floats are idealised as exact rationals ([Q]); rounding,
      infinities and NaN are outside the model.
    - Python strings are [string]s of ASCII characters.
    - A call can return, raise, or loop forever: [res].
    - The [warnings] list that the Python code mutates in place is threaded
      through every function as explicit state.
    - shapely's affine maps, bounds and areas are written out on coordinate
      lists; its union, repair and buffer algorithms, and trimesh, are the
      fields of the records [GeomKernel] and [MeshKernel]. *)

From Stdlib Require Import String Ascii List Bool Arith ZArith QArith Qabs Lia Lqa.
From Stdlib Require Import DecimalString.
Import ListNotations.

Set Implicit Arguments.
Set Warnings "-register-all".

(* ------------------------------------------------------------------ *)
(** ** Outcomes of a call *)

(** One constructor per [raise ConvertError(...)] site of convert.py. *)
Inductive convert_error : Type :=
| PathNumbersBeforeCommand
| UnsupportedPathCommand
| InvalidInput
| UnsupportedContent
| NoShapesFound
| DegenerateBounds
| BadScaleFactor
| EmptyAfterBuffer
| EmptyAfterCleanup
| MeshBuildFailure
| EmptyResult
| InvalidMode
| MeshExportFailure.

(** The text carried by each error; the two f-strings keep their prefix. *)
Definition message (e : convert_error) : string :=
  match e with
  | PathNumbersBeforeCommand => "SVG path has numbers before any command."
  | UnsupportedPathCommand =>
      "Unsupported SVG path command. Please convert curves to line segments (no C/Q/A)."
  | InvalidInput => "Invalid SVG file: "
  | UnsupportedContent =>
      "The SVG contains embedded raster images. Please upload a vector-only SVG (no <image> tags)."
  | NoShapesFound =>
      "No vector paths/shapes found. Please export SVG with paths (not text/raster)."
  | DegenerateBounds => "SVG has invalid geometry bounds (zero area)."
  | BadScaleFactor => "Could not compute scale factor from SVG bounds."
  | EmptyAfterBuffer =>
      "After processing, geometry became empty. Try increasing minimum line thickness."
  | EmptyAfterCleanup =>
      "Geometry is empty after union/cleanup. Ensure your SVG has closed shapes."
  | MeshBuildFailure => "Could not extrude polygon: "
  | EmptyResult =>
      "No printable geometry after processing. Try increasing min line thickness or simplifying the SVG."
  | InvalidMode => "Mode must be 'raised' or 'engraved'."
  | MeshExportFailure => "Mesh generation failed (empty)."
  end.

(** The spec's error taxonomy (section 7) groups three raise sites under
    one name. *)
Inductive error_class : Type :=
| CInvalidInput | CUnsupportedContent | CUnsupportedPathCommand
| CEmptyGeometry | CDegenerateBounds | CMeshBuildFailure | CEmptyResult
| CMeshExportFailure | CUnclassified.

Definition classify (e : convert_error) : error_class :=
  match e with
  | InvalidInput => CInvalidInput
  | UnsupportedContent => CUnsupportedContent
  | UnsupportedPathCommand => CUnsupportedPathCommand
  | NoShapesFound | EmptyAfterBuffer | EmptyAfterCleanup => CEmptyGeometry
  | DegenerateBounds => CDegenerateBounds
  | MeshBuildFailure => CMeshBuildFailure
  | EmptyResult => CEmptyResult
  | MeshExportFailure => CMeshExportFailure
  | PathNumbersBeforeCommand | BadScaleFactor | InvalidMode => CUnclassified
  end.

(** Python exceptions that can escape the pipeline. *)
Inductive exn : Type :=
| ConvertError (e : convert_error)
| ValueError        (* float() of a malformed literal *)
| IndexError        (* tokens[i] past the end *)
| AttributeError    (* .geoms / .interiors on a geometry without them *)
| LibraryError.     (* an exception raised inside shapely or trimesh *)

Inductive res (A : Type) : Type :=
| Ok (a : A)
| Raise (e : exn)
| Diverge.          (* the call never returns *)

Arguments Ok {A} a.
Arguments Raise {A} e.
Arguments Diverge {A}.

Definition bind {A B : Type} (m : res A) (k : A -> res B) : res B :=
  match m with
  | Ok a => k a
  | Raise e => Raise e
  | Diverge => Diverge
  end.

Declare Scope res_scope.
Delimit Scope res_scope with res.
Notation "x <- m ;; k" := (bind m (fun x => k))
  (at level 61, m at next level, right associativity) : res_scope.
Notation "' p <- m ;; k" := (bind m (fun v => let p := v in k))
  (at level 61, p pattern, m at next level, right associativity) : res_scope.

(** A call into shapely or trimesh: it returns, or raises an exception of
    the library's own ([None]). *)
Definition lift {A : Type} (o : option A) : res A :=
  match o with
  | Some a => Ok a
  | None => Raise LibraryError
  end.

(** [try: ... except Exception: ...]: exceptions are caught, a hang is not. *)
Definition try_except {A : Type} (m : res A) (handler : exn -> res A) : res A :=
  match m with
  | Ok a => Ok a
  | Raise e => handler e
  | Diverge => Diverge
  end.

(* ------------------------------------------------------------------ *)
(** ** Python string helpers *)

Module Py.

Definition chars (s : string) : list ascii := list_ascii_of_string s.

Definition is_digit (c : ascii) : bool :=
  let n := nat_of_ascii c in (48 <=? n)%nat && (n <=? 57)%nat.

Definition digit_value (c : ascii) : Z := Z.of_nat (nat_of_ascii c - 48).

(** [str.isspace] on the ASCII range. *)
Definition is_space (c : ascii) : bool :=
  let n := nat_of_ascii c in
  ((9 <=? n)%nat && (n <=? 13)%nat) || ((28 <=? n)%nat && (n <=? 32)%nat).

Definition lower_char (c : ascii) : ascii :=
  let n := nat_of_ascii c in
  if (65 <=? n)%nat && (n <=? 90)%nat then ascii_of_nat (n + 32) else c.

Definition lower (s : list ascii) : list ascii := map lower_char s.

Fixpoint startswith (p s : list ascii) : bool :=
  match p, s with
  | [], _ => true
  | _ :: _, [] => false
  | a :: p', b :: s' => Ascii.eqb a b && startswith p' s'
  end.

(** [p in s] for strings. *)
Fixpoint contains (p s : list ascii) : bool :=
  startswith p s ||
  match s with
  | [] => false
  | _ :: s' => contains p s'
  end.

Fixpoint lstrip (s : list ascii) : list ascii :=
  match s with
  | c :: s' => if is_space c then lstrip s' else s
  | [] => []
  end.

Definition strip (s : list ascii) : list ascii :=
  rev (lstrip (rev (lstrip s))).

Fixpoint span_digits (s : list ascii) : list ascii * list ascii :=
  match s with
  | c :: s' =>
      if is_digit c
      then let (ds, r) := span_digits s' in (c :: ds, r)
      else ([], s)
  | [] => ([], [])
  end.

Definition digits_value (ds : list ascii) : Z :=
  fold_left (fun acc c => (10 * acc + digit_value c)%Z) ds 0%Z.

Definition is_nil {A : Type} (l : list A) : bool :=
  match l with [] => true | _ => false end.

Definition pow10 (k : Z) : Q := Qpower (10 # 1) k.

(** [float(s)] for decimal literals: optional surrounding blanks, optional
    sign, [digits[.digits]] or [.digits], optional exponent.  Anything else
    is a [ValueError] ([None]).  The non-finite spellings and digit
    separators that Python also accepts have no counterpart in [Q]. *)
Definition float (s : list ascii) : option Q :=
  let s0 := strip s in
  let '(neg, s1) :=
    match s0 with
    | "-"%char :: r => (true, r)
    | "+"%char :: r => (false, r)
    | _ => (false, s0)
    end in
  let '(ip, s2) := span_digits s1 in
  let '(fp, s3, dotted) :=
    match s2 with
    | "."%char :: r => let (f, r') := span_digits r in (f, r', true)
    | _ => ([], s2, false)
    end in
  if is_nil ip && is_nil fp then None else
  let mant := digits_value (ip ++ fp) in
  let finish (e : Z) : option Q :=
    let v := (inject_Z mant * pow10 (e - Z.of_nat (length fp)))%Q in
    Some (if neg then Qopp v else v) in
  match s3 with
  | [] => finish 0%Z
  | c :: r =>
      if Ascii.eqb c "e" || Ascii.eqb c "E" then
        let '(eneg, r1) :=
          match r with
          | "-"%char :: r' => (true, r')
          | "+"%char :: r' => (false, r')
          | _ => (false, r)
          end in
        let '(ed, r2) := span_digits r1 in
        if is_nil ed || negb (is_nil r2) then None
        else finish (if eneg then (- digits_value ed)%Z else digits_value ed)
      else None
  end.

End Py.

(* ------------------------------------------------------------------ *)
(** ** The path interpreter: [_path_to_linestring] *)

Definition point : Type := (Q * Q)%type.

Module Path.

(** A token of [re.findall(r"[MmLlHhVvZz]|-?\d*\.?\d+(?:[eE][-+]?\d+)?", d)]:
    the first alternative yields one command letter, the second a number
    literal.  [re.match(r"^[MmLlHhVvZz]$", t)] holds exactly for the
    former. *)
Inductive token : Type :=
| TCmd (c : ascii)
| TNum (s : list ascii).

Definition is_path_cmd (c : ascii) : bool :=
  existsb (Ascii.eqb c)
    ["M"; "m"; "L"; "l"; "H"; "h"; "V"; "v"; "Z"; "z"]%char.

(** [(?:[eE][-+]?\d+)?] at [s]: the matched text, empty when the optional
    group does not match. *)
Definition match_exponent (s : list ascii) : list ascii :=
  match s with
  | c :: r =>
      if Ascii.eqb c "e" || Ascii.eqb c "E" then
        let '(sgn, r1) :=
          match r with
          | "-"%char :: r' => (["-"%char], r')
          | "+"%char :: r' => (["+"%char], r')
          | _ => ([], r)
          end in
        let (ed, _) := Py.span_digits r1 in
        if Py.is_nil ed then [] else c :: sgn ++ ed
      else []
  | [] => []
  end.

(** [-?\d*\.?\d+(?:[eE][-+]?\d+)?] anchored at [s], with the regex engine's
    greedy choices and backtracking resolved: the digits run is maximal; a
    dot is taken only when a digit follows it; without a fraction the run
    must be non-empty. *)
Definition match_number (s : list ascii) : option (list ascii) :=
  let '(sgn, s1) :=
    match s with
    | "-"%char :: r => (["-"%char], r)
    | _ => ([], s)
    end in
  let '(ip, s2) := Py.span_digits s1 in
  let no_fraction :=
    if Py.is_nil ip then None
    else Some (sgn ++ ip ++ match_exponent s2) in
  match s2 with
  | "."%char :: s3 =>
      let '(fp, s4) := Py.span_digits s3 in
      if Py.is_nil fp then no_fraction
      else Some (sgn ++ ip ++ "."%char :: fp ++ match_exponent s4)
  | _ => no_fraction
  end.

(** [re.findall]: scan left to right; a match consumes its text, a
    position with no match is skipped.  [skip] counts the characters of
    the current match still to be passed over. *)
Fixpoint findall (s : list ascii) (skip : nat) : list token :=
  match s with
  | [] => []
  | c :: s' =>
      match skip with
      | S k => findall s' k
      | O =>
          if is_path_cmd c then TCmd c :: findall s' 0
          else match match_number s with
               | Some t => TNum t :: findall s' (length t - 1)
               | None => findall s' 0
               end
      end
  end.

Definition tokenize (d : string) : list token := findall (Py.chars d) 0.

(** The local variables of the [while] loop. *)
Record state : Type := mkState {
  i : nat;
  cmd : option ascii;
  x : Q;
  y : Q;
  start : option point;
  pts : list point
}.

Definition init : state := mkState 0 None 0 0 None [].

Section Interp.
Variable tokens : list token.

(** [read_num()]: [float(tokens[i]); i += 1]. *)
Definition read_num (st : state) : res (Q * state) :=
  match nth_error tokens (i st) with
  | None => Raise IndexError
  | Some (TCmd _) => Raise ValueError
  | Some (TNum s) =>
      match Py.float s with
      | None => Raise ValueError
      | Some v => Ok (v, mkState (S (i st)) (cmd st) (x st) (y st) (start st) (pts st))
      end
  end.

Definition one_of (c a b : ascii) : bool := Ascii.eqb c a || Ascii.eqb c b.

Definition append_start (st : state) : state :=
  match start st with
  | Some p => mkState (i st) (cmd st) (x st) (y st) (start st) (pts st ++ [p])
  | None => st
  end.

(** The [if cmd in "Mm": ... elif ... else: raise] chain. *)
Definition dispatch (c : ascii) (st : state) : res state :=
  if one_of c "M" "m" then
    bind (read_num st) (fun '(dx, st1) =>
    bind (read_num st1) (fun '(dy, st2) =>
      let '(nx, ny) :=
        if Ascii.eqb c "m" then (x st2 + dx, y st2 + dy)%Q else (dx, dy) in
      Ok (mkState (i st2)
            (Some (if Ascii.eqb c "m" then "l"%char else "L"%char))
            nx ny (Some (nx, ny)) (pts st2 ++ [(nx, ny)]))))
  else if one_of c "L" "l" then
    bind (read_num st) (fun '(dx, st1) =>
    bind (read_num st1) (fun '(dy, st2) =>
      let '(nx, ny) :=
        if Ascii.eqb c "l" then (x st2 + dx, y st2 + dy)%Q else (dx, dy) in
      Ok (mkState (i st2) (cmd st2) nx ny (start st2) (pts st2 ++ [(nx, ny)]))))
  else if one_of c "H" "h" then
    bind (read_num st) (fun '(dx, st1) =>
      let nx := if Ascii.eqb c "h" then (x st1 + dx)%Q else dx in
      Ok (mkState (i st1) (cmd st1) nx (y st1) (start st1)
            (pts st1 ++ [(nx, y st1)])))
  else if one_of c "V" "v" then
    bind (read_num st) (fun '(dy, st1) =>
      let ny := if Ascii.eqb c "v" then (y st1 + dy)%Q else dy in
      Ok (mkState (i st1) (cmd st1) (x st1) ny (start st1)
            (pts st1 ++ [(x st1, ny)])))
  else if one_of c "Z" "z" then
    Ok (append_start st)
  else
    Raise (ConvertError UnsupportedPathCommand).

(** One iteration of [while i < len(tokens)]. *)
Definition step (st : state) : res state :=
  match nth_error tokens (i st) with
  | None => Ok st
  | Some (TCmd c) =>
      let st1 := mkState (S (i st)) (Some c) (x st) (y st) (start st) (pts st) in
      if one_of c "Z" "z" then Ok (append_start st1)
      else dispatch c st1
  | Some (TNum _) =>
      match cmd st with
      | None => Raise (ConvertError PathNumbersBeforeCommand)
      | Some c => dispatch c st
      end
  end.

(** The loop, with [fuel] bounding the number of iterations. *)
Fixpoint run (fuel : nat) (st : state) : res state :=
  if (i st <? length tokens)%nat then
    match fuel with
    | O => Diverge
    | S f =>
        match step st with
        | Ok st' => run f st'
        | Raise e => Raise e
        | Diverge => Diverge
        end
    end
  else Ok st.

End Interp.

(** [_path_to_linestring(d)]: [None] is Python's [None], [Some pts] is
    [LineString(pts)].  Every iteration that is not stuck consumes a
    token, so [length tokens] iterations exhaust the input; running out of
    fuel is the loop that never ends. *)
Definition _path_to_linestring (d : string) : res (option (list point)) :=
  match d with
  | EmptyString => Ok None
  | _ =>
      let tokens := tokenize d in
      match tokens with
      | [] => Ok None
      | _ =>
          bind (run tokens (length tokens) init) (fun st =>
            if (length (pts st) <? 3)%nat then Ok None
            else Ok (Some (pts st)))
      end
  end.

End Path.

(* ------------------------------------------------------------------ *)
(** ** The parsed drawing (lxml element tree) *)

Module Svg.

(** An element as lxml presents it: [tag] and attribute keys in Clark
    notation ([{namespace}local]), children in document order. *)
Inductive Element : Type :=
| Elem (tag : string) (attrib : list (string * string)) (children : list Element).

Definition tag (e : Element) : string := let 'Elem t _ _ := e in t.
Definition attrib (e : Element) : list (string * string) := let 'Elem _ a _ := e in a.
Definition children (e : Element) : list Element := let 'Elem _ _ c := e in c.

(** [root.iter()]: the element, then its descendants, in document order. *)
Fixpoint iter (e : Element) : list Element :=
  match e with
  | Elem _ _ cs => e :: flat_map iter cs
  end.

Fixpoint after_brace (s : list ascii) : option (list ascii) :=
  match s with
  | [] => None
  | c :: r => if Ascii.eqb c "}" then Some r else after_brace r
  end.

(** [etree.QName(el).localname.lower()] *)
Definition localname_lower (e : Element) : list ascii :=
  let t := Py.chars (tag e) in
  Py.lower
    match t with
    | "{"%char :: r => match after_brace r with Some l => l | None => t end
    | _ => t
    end.

(** [attr in el.attrib] and [el.attrib.get(attr, default)] *)
Definition get (e : Element) (key : string) : option string :=
  match find (fun kv => String.eqb (fst kv) key) (attrib e) with
  | Some kv => Some (snd kv)
  | None => None
  end.

Definition XLINK_NS : string := "http://www.w3.org/1999/xlink".
Definition href_keys : list string :=
  ["href"; "{" ++ XLINK_NS ++ "}href"]%string.

Definition raster_exts : list (list ascii) :=
  map Py.chars ["png"; "jpg"; "jpeg"; "gif"; "bmp"; "webp"]%string.

(** [(\?|#|$)]: [$] matches at the end of the string and before a final
    newline. *)
Definition at_terminator (s : list ascii) : bool :=
  match s with
  | [] => true
  | c :: r =>
      Ascii.eqb c "?" || Ascii.eqb c "#" || (Ascii.eqb c "010" && Py.is_nil r)
  end.

(** [(png|jpg|jpeg|gif|bmp|webp)(\?|#|$)] right after a dot, ignoring case. *)
Definition ext_here (s : list ascii) : bool :=
  existsb (fun e =>
             Py.startswith e (Py.lower s) && at_terminator (skipn (length e) s))
          raster_exts.

(** [re.search(r"\.(png|jpg|jpeg|gif|bmp|webp)(\?|#|$)", href, re.I)] *)
Fixpoint raster_ext (s : list ascii) : bool :=
  match s with
  | [] => false
  | c :: r => (Ascii.eqb c "." && ext_here r) || raster_ext r
  end.

(** The body of the [for attr in (...)] loop for one attribute value. *)
Definition href_is_raster (href : string) : bool :=
  let h := Py.chars href in
  (Py.startswith (Py.chars "data:") h
     && negb (Py.contains (Py.chars "image/svg+xml") h))
  || raster_ext h.

Definition has_localname (e : Element) (name : string) : bool :=
  if list_eq_dec ascii_dec (localname_lower e) (Py.chars name) then true else false.

Definition element_is_raster (e : Element) : bool :=
  has_localname e "image"
  || existsb (fun key =>
                match get e key with
                | Some href => href_is_raster href
                | None => false
                end) href_keys.

Definition _has_raster_images (svg_root : Element) : bool :=
  existsb element_is_raster (iter svg_root).

(** [re.split(r"[\s,]+", s)] with the empty pieces dropped. *)
Fixpoint fields (s cur : list ascii) : list (list ascii) :=
  match s with
  | [] => if Py.is_nil cur then [] else [rev cur]
  | c :: r =>
      if Py.is_space c || Ascii.eqb c ","
      then (if Py.is_nil cur then fields r [] else rev cur :: fields r [])
      else fields r (c :: cur)
  end.

Fixpoint floats (l : list (list ascii)) : res (list Q) :=
  match l with
  | [] => Ok []
  | s :: r =>
      match Py.float s with
      | None => Raise ValueError
      | Some v => bind (floats r) (fun vs => Ok (v :: vs))
      end
  end.

(** [for i in range(0, len(nums) - 1, 2): pts.append((nums[i], nums[i+1]))] *)
Fixpoint pairs (nums : list Q) : list point :=
  match nums with
  | a :: b :: r => (a, b) :: pairs r
  | _ => []
  end.

Definition _parse_points (points : string) : res (list point) :=
  bind (floats (fields (Py.strip (Py.chars points)) [])) (fun nums =>
  Ok (pairs nums)).

End Svg.

(* ------------------------------------------------------------------ *)
(** ** Planar geometry (the shapely values the pipeline handles) *)

Definition ring : Type := list point.

(** [Polygon(shell, holes)]; [poly.exterior], [poly.interiors]. *)
Record Polygon : Type := mkPolygon {
  exterior : ring;
  interiors : list ring
}.

(** The geometry classes that [isinstance] tells apart. *)
Inductive Geometry : Type :=
| GLineString (pts : list point)
| GPolygon (p : Polygon)
| GMultiPolygon (ps : list Polygon)
| GCollection (gs : list Geometry).

Module Geom.

Definition Qltb (a b : Q) : bool := negb (Qle_bool b a).

(** Python's [max(a, b)]: the first argument unless the second is larger. *)
Definition py_max (a b : Q) : Q := if Qltb a b then b else a.

Definition qmin (a b : Q) : Q := if Qle_bool a b then a else b.
Definition qmax (a b : Q) : Q := if Qle_bool a b then b else a.

Fixpoint minimum (a : Q) (l : list Q) : Q :=
  match l with
  | [] => a
  | b :: r => qmin a (minimum b r)
  end.

Fixpoint maximum (a : Q) (l : list Q) : Q :=
  match l with
  | [] => a
  | b :: r => qmax a (maximum b r)
  end.

Definition poly_coords (p : Polygon) : list point :=
  exterior p ++ concat (interiors p).

Fixpoint coords (g : Geometry) : list point :=
  match g with
  | GLineString pts => pts
  | GPolygon p => poly_coords p
  | GMultiPolygon ps => flat_map poly_coords ps
  | GCollection gs => flat_map coords gs
  end.

(** [geom.is_empty]: the geometry has no coordinates. *)
Definition is_empty (g : Geometry) : bool := Py.is_nil (coords g).

(** [(minx, miny, maxx, maxy)] of a coordinate list; [None] stands for the
    all-NaN tuple that shapely reports for an empty geometry. *)
Definition bounds_of (l : list point) : option (Q * Q * Q * Q) :=
  match l with
  | [] => None
  | (x0, y0) :: r =>
      Some (minimum x0 (map fst r), minimum y0 (map snd r),
            maximum x0 (map fst r), maximum y0 (map snd r))
  end.

(** [geom.bounds] *)
Definition bounds (g : Geometry) : option (Q * Q * Q * Q) := bounds_of (coords g).

Definition map_polygon (f : point -> point) (p : Polygon) : Polygon :=
  mkPolygon (map f (exterior p)) (map (map f) (interiors p)).

Fixpoint map_geometry (f : point -> point) (g : Geometry) : Geometry :=
  match g with
  | GLineString pts => GLineString (map f pts)
  | GPolygon p => GPolygon (map_polygon f p)
  | GMultiPolygon ps => GMultiPolygon (map (map_polygon f) ps)
  | GCollection gs => GCollection (map (map_geometry f) gs)
  end.

Definition scale_point (xfact yfact : Q) (origin : point) (p : point) : point :=
  (xfact * fst p + (fst origin - fst origin * xfact),
   yfact * snd p + (snd origin - snd origin * yfact)).

Definition translate_point (xoff yoff : Q) (p : point) : point :=
  (fst p + xoff, snd p + yoff).

(** [shapely.affinity.scale(geom, xfact, yfact, origin)] *)
Definition shp_scale (g : Geometry) (xfact yfact : Q) (origin : point) : Geometry :=
  map_geometry (scale_point xfact yfact origin) g.

(** [shapely.affinity.translate(geom, xoff, yoff)] *)
Definition translate (g : Geometry) (xoff yoff : Q) : Geometry :=
  map_geometry (translate_point xoff yoff) g.

Definition cross (p q : point) : Q := fst p * snd q - fst q * snd p.

(** Twice the signed area of a ring, closing it back to [first]. *)
Fixpoint shoelace (first : point) (r : ring) : Q :=
  match r with
  | [] => 0
  | p :: r' =>
      match r' with
      | [] => cross p first
      | q :: _ => cross p q + shoelace first r'
      end
  end.

(** [Polygon(ring).area] *)
Definition ring_area (r : ring) : Q :=
  match r with
  | [] => 0
  | p :: _ => Qabs (shoelace p r) / 2
  end.

Definition Qsum (l : list Q) : Q := fold_right Qplus 0 l.

(** [poly.area]: the shell less its holes. *)
Definition area (p : Polygon) : Q :=
  ring_area (exterior p) - Qsum (map ring_area (interiors p)).

Definition polygon_is_empty (p : Polygon) : bool := Py.is_nil (poly_coords p).

End Geom.

(** [cap_style] and [join_style] of [buffer]: 1, 2, 3. *)
Inductive cap_style : Type := CapRound | CapFlat | CapSquare.
Inductive join_style : Type := JoinRound | JoinMitre | JoinBevel.

(** The algorithms of shapely (GEOS) that the pipeline calls.  Each may
    raise ([None]). *)
Record GeomKernel : Type := {
  make_valid : Geometry -> option Geometry;
  unary_union : list Geometry -> option Geometry;
  buffer : Geometry -> Q -> cap_style -> join_style -> option Geometry;
  (** [Point(cx, cy).buffer(r, resolution=n)] *)
  point_buffer : Q -> Q -> Q -> nat -> option Polygon
}.

(** trimesh and the optional OpenSCAD engine behind [trimesh.boolean]. *)
Record MeshKernel : Type := {
  Mesh : Type;
  (** [trimesh.creation.box(extents=(sx, sy, sz))] *)
  box : Q -> Q -> Q -> Mesh;
  extrude_polygon : Polygon -> Q -> option Mesh;
  apply_translation : Mesh -> Q * Q * Q -> Mesh;
  concatenate : list Mesh -> Mesh;
  boolean_union : list Mesh -> option Mesh;
  boolean_difference : list Mesh -> option Mesh;
  mesh_is_empty : Mesh -> bool;
  (** [mesh.process(validate=True)] *)
  process : Mesh -> Mesh;
  (** [mesh.bounds]: the two corners [(minx, miny, minz)], [(maxx, maxy, maxz)] *)
  mesh_bounds : Mesh -> (Q * Q * Q) * (Q * Q * Q);
  (** [trimesh.interfaces.scad.exists] *)
  scad_exists : bool
}.

(** The strings appended to [warnings]. *)
Inductive warning : Type :=
| ScaledDownWarning
| LargeMinLineWarning
| HolesRemovedWarning (removed : nat)
| NoScadRaisedWarning
| NoScadEngravedWarning.

Definition warning_text (w : warning) : string :=
  match w with
  | ScaledDownWarning =>
      "The SVG was scaled down significantly; very fine details may be lost in printing."
  | LargeMinLineWarning =>
      "Minimum line thickness is large; small details may be merged."
  | HolesRemovedWarning n =>
      "Removed " ++ NilZero.string_of_uint (Nat.to_uint n)
        ++ " small hole(s) to improve printability."
  | NoScadRaisedWarning =>
      "OpenSCAD not found in container; exported as multi-solid STL (still printable)."
  | NoScadEngravedWarning =>
      "OpenSCAD not found in container; engraved mode approximated (no boolean)."
  end%string.

Record DimensionReport : Type := mkReport {
  size_mm : Q;
  base_mm : Q;
  relief_mm : Q;
  mode : string;
  bbox_mm : Q * Q * Q * Q;
  approx_area_mm2 : Q;
  warnings : list warning
}.

(* ------------------------------------------------------------------ *)
(** ** The pipeline of convert.py *)

Section Pipeline.

Variable G : GeomKernel.
Variable M : MeshKernel.

Local Open Scope res_scope.
Import Geom.

(** [float(el.attrib.get(key, 0))] *)
Definition attr_float (el : Svg.Element) (key : string) : res Q :=
  match Svg.get el key with
  | None => Ok 0
  | Some s =>
      match Py.float (Py.chars s) with
      | Some v => Ok v
      | None => Raise ValueError
      end
  end.

(** [el.attrib.get(key, "")] *)
Definition attr_text (el : Svg.Element) (key : string) : string :=
  match Svg.get el key with
  | Some s => s
  | None => EmptyString
  end.

(** The body of the [for el in root.iter()] loop of [_extract_geometry]:
    the geometry an element contributes, if any. *)
Definition element_geometry (el : Svg.Element) : res (option Geometry) :=
  if Svg.has_localname el "path" then
    ls <- Path._path_to_linestring (attr_text el "d") ;;
    Ok (option_map GLineString ls)
  else if Svg.has_localname el "rect" then
    x <- attr_float el "x" ;;
    y <- attr_float el "y" ;;
    w <- attr_float el "width" ;;
    h <- attr_float el "height" ;;
    if Qltb 0 w && Qltb 0 h
    then Ok (Some (GPolygon
                     (mkPolygon [(x, y); (x + w, y); (x + w, y + h); (x, y + h)] [])))
    else Ok None
  else if Svg.has_localname el "circle" then
    cx <- attr_float el "cx" ;;
    cy <- attr_float el "cy" ;;
    r <- attr_float el "r" ;;
    if Qltb 0 r
    then p <- lift (point_buffer G cx cy r 64) ;; Ok (Some (GPolygon p))
    else Ok None
  else if Svg.has_localname el "ellipse" then
    cx <- attr_float el "cx" ;;
    cy <- attr_float el "cy" ;;
    rx <- attr_float el "rx" ;;
    ry <- attr_float el "ry" ;;
    if Qltb 0 rx && Qltb 0 ry
    then g <- lift (point_buffer G cx cy 1 64) ;;
         Ok (Some (shp_scale (GPolygon g) rx ry (cx, cy)))
    else Ok None
  else if Svg.has_localname el "polygon" || Svg.has_localname el "polyline" then
    pts <- Svg._parse_points (attr_text el "points") ;;
    if (3 <=? length pts)%nat then
      if Svg.has_localname el "polyline"
      then Ok (Some (GLineString pts))
      else Ok (Some (GPolygon (mkPolygon pts [])))
    else Ok None
  else Ok None.

Fixpoint collect_geometry (els : list Svg.Element) : res (list Geometry) :=
  match els with
  | [] => Ok []
  | el :: rest =>
      g <- element_geometry el ;;
      gs <- collect_geometry rest ;;
      Ok (match g with Some g' => g' :: gs | None => gs end)
  end.

(** [_extract_geometry(svg_bytes)].  The bytes are represented by what
    [etree.fromstring] makes of them: [None] when it raises, the root
    element otherwise. *)
Definition _extract_geometry (svg : option Svg.Element)
  : res (Svg.Element * list Geometry) :=
  match svg with
  | None => Raise (ConvertError InvalidInput)
  | Some root =>
      if Svg._has_raster_images root then Raise (ConvertError UnsupportedContent)
      else
        geoms <- collect_geometry (Svg.iter root) ;;
        match geoms with
        | [] => Raise (ConvertError NoShapesFound)
        | _ => Ok (root, geoms)
        end
  end.

(** [_normalize_to_size(geom, target_size_mm, warnings)].  When the bounds
    are NaN every comparison is false and the affine maps return an empty
    geometry as it is. *)
Definition _normalize_to_size (geom : Geometry) (target_size_mm : Q)
    (ws : list warning) : res (Geometry * list warning) :=
  match bounds geom with
  | None => Ok (geom, ws)
  | Some (minx, miny, maxx, maxy) =>
      let w := maxx - minx in
      let h := maxy - miny in
      if Qle_bool w 0 || Qle_bool h 0
      then Raise (ConvertError DegenerateBounds)
      else
        let scale_factor := target_size_mm / py_max w h in
        if Qle_bool scale_factor 0
        then Raise (ConvertError BadScaleFactor)
        else
          let geom_s := shp_scale geom scale_factor scale_factor (0, 0) in
          let ws' :=
            if Qltb scale_factor (1 # 2) then ws ++ [ScaledDownWarning] else ws in
          match bounds geom_s with
          | None => Ok (geom_s, ws')
          | Some (minx2, miny2, maxx2, maxy2) =>
              let cx := (minx2 + maxx2) / 2 in
              let cy := (miny2 + maxy2) / 2 in
              Ok (translate geom_s (- cx) (- cy), ws')
          end
  end.

(** [max(min_line_mm/2.0, 0.01)] *)
Definition half_width (min_line_mm : Q) : Q := py_max (min_line_mm / 2) (1 # 100).

(** [geom.buffer(0)] *)
Definition buffer0 (g : Geometry) : res Geometry :=
  lift (buffer G g 0 CapRound JoinRound).

(** [_buffer_to_min_line(geom, min_line_mm, warnings)] *)
Definition _buffer_to_min_line (geom : Geometry) (min_line_mm : Q)
    (ws : list warning) : res (Geometry * list warning) :=
  let half := half_width min_line_mm in
  polys <-
    match geom with
    | GLineString _ => b <- lift (buffer G geom half CapFlat JoinMitre) ;; Ok [b]
    | GPolygon _ | GMultiPolygon _ => b <- buffer0 geom ;; Ok [b]
    | _ => try_except (b <- buffer0 geom ;; Ok [b]) (fun _ => Ok [])
    end ;;
  u <- match polys with
       | [] => Ok geom
       | _ => lift (unary_union G polys)
       end ;;
  u2 <- try_except (buffer0 u) (fun _ => Ok u) ;;
  if is_empty u2 then Raise (ConvertError EmptyAfterBuffer)
  else Ok (u2, if Qltb 1 half then ws ++ [LargeMinLineWarning] else ws).

(** The [for ring in poly.interiors] loop: the rings kept so far and the
    number removed. *)
Definition hole_step (min_hole_area_mm2 : Q) (acc : list ring * nat) (r : ring)
  : list ring * nat :=
  if Qle_bool min_hole_area_mm2 (ring_area r)
  then (fst acc ++ [r], snd acc)
  else (fst acc, S (snd acc)).

(** [_remove_small_holes(poly, min_hole_area_mm2, warnings)] *)
Definition _remove_small_holes (poly : Polygon) (min_hole_area_mm2 : Q)
    (ws : list warning) : Polygon * list warning :=
  match interiors poly with
  | [] => (poly, ws)
  | _ =>
      let '(keep, removed) :=
        fold_left (hole_step min_hole_area_mm2) (interiors poly) ([], 0%nat) in
      (mkPolygon (exterior poly) keep,
       match removed with
       | O => ws
       | _ => ws ++ [HolesRemovedWarning removed]
       end)
  end.

(** [0.35 * 0.35] *)
Definition min_hole_area : Q := (35 # 100) * (35 # 100).

Fixpoint remove_holes_each (ps : list Polygon) (ws : list warning)
  : list Polygon * list warning :=
  match ps with
  | [] => ([], ws)
  | p :: rest =>
      let '(p2, ws1) := _remove_small_holes p min_hole_area ws in
      let '(rest2, ws2) := remove_holes_each rest ws1 in
      (p2 :: rest2, ws2)
  end.

Definition only_polygons (gs : list Geometry) : list Polygon :=
  flat_map (fun g => match g with GPolygon p => [p] | _ => [] end) gs.

(** The [isinstance] cases of [_clean_geometry] that force a multipolygon. *)
Definition ensure_multipolygon (g : Geometry) : Geometry :=
  match g with
  | GPolygon p => GMultiPolygon [p]
  | GCollection gs => GMultiPolygon (only_polygons gs)
  | _ => g
  end.

(** [_clean_geometry(geom, warnings)]; the result is the list of the
    returned [MultiPolygon]. *)
Definition _clean_geometry (geom : Geometry) (ws : list warning)
  : res (list Polygon * list warning) :=
  valid <- try_except (lift (make_valid G geom)) (fun _ => Ok geom) ;;
  unioned <- lift (unary_union G [valid]) ;;
  let multi := ensure_multipolygon unioned in
  if is_empty multi then Raise (ConvertError EmptyAfterCleanup)
  else
    match multi with
    | GMultiPolygon ps => Ok (remove_holes_each ps ws)
    | _ => Raise AttributeError
    end.

(** The first loop of [convert_svg_to_stl]: lines become bands, polygons
    pass, anything else is buffered by zero if that works. *)
Fixpoint unify_to_polygons (raw_geoms : list Geometry) (min_line_mm : Q)
  : res (list Geometry) :=
  match raw_geoms with
  | [] => Ok []
  | g :: rest =>
      here <-
        match g with
        | GLineString _ =>
            b <- lift (buffer G g (half_width min_line_mm) CapFlat JoinMitre) ;;
            Ok [b]
        | GPolygon _ => Ok [g]
        | _ => try_except (b <- buffer0 g ;; Ok [b]) (fun _ => Ok [])
        end ;;
      more <- unify_to_polygons rest min_line_mm ;;
      Ok (here ++ more)
  end.

(** The 2D stages, from the drawing to the final region set. *)
Definition relief_regions (svg : option Svg.Element) (size_mm min_line_mm : Q)
  : res (list Polygon * list warning) :=
  '(_, raw_geoms) <- _extract_geometry svg ;;
  converted <- unify_to_polygons raw_geoms min_line_mm ;;
  geom <- lift (unary_union G converted) ;;
  '(ps, ws) <- _clean_geometry geom [] ;;
  '(geom, ws) <- _normalize_to_size (GMultiPolygon ps) size_mm ws ;;
  '(geom, ws) <- _buffer_to_min_line geom min_line_mm ws ;;
  _clean_geometry geom ws.

(** [base = box(...); base.apply_translation((0, 0, base_mm/2))] *)
Definition base_slab (size_mm base_mm : Q) : Mesh M :=
  apply_translation M (box M size_mm size_mm base_mm) (0, 0, base_mm / 2).

(** [p.is_empty or p.area <= 0] *)
Definition skipped (p : Polygon) : bool :=
  polygon_is_empty p || Qle_bool (area p) 0.

(** The [for p in geom.geoms] loop that fills [relief_meshes]. *)
Fixpoint extrude_regions (ps : list Polygon) (base_mm relief_mm : Q)
  : res (list (Mesh M)) :=
  match ps with
  | [] => Ok []
  | p :: rest =>
      here <-
        (if skipped p then Ok []
         else try_except
                (m <- lift (extrude_polygon M p relief_mm) ;;
                 Ok [apply_translation M m (0, 0, base_mm)])
                (fun _ => Raise (ConvertError MeshBuildFailure))) ;;
      more <- extrude_regions rest base_mm relief_mm ;;
      Ok (here ++ more)
  end.

(** [relief_meshes], then [trimesh.util.concatenate(relief_meshes)]. *)
Definition relief_volume (ps : list Polygon) (base_mm relief_mm : Q)
  : res (Mesh M) :=
  relief_meshes <- extrude_regions ps base_mm relief_mm ;;
  match relief_meshes with
  | [] => Raise (ConvertError EmptyResult)
  | _ => Ok (concatenate M relief_meshes)
  end.

(** [(mode or "raised").lower()] *)
Definition normalize_mode (mode : option string) : string :=
  let m := match mode with
           | None | Some EmptyString => "raised"%string
           | Some s => s
           end in
  string_of_list_ascii (Py.lower (Py.chars m)).

(** The [if mode == "raised": ... else: ...] block. *)
Definition combine (mode : string) (base relief : Mesh M) (relief_mm : Q)
    (ws : list warning) : res (Mesh M * list warning) :=
  if String.eqb mode "raised" then
    stamp <- (if scad_exists M then lift (boolean_union M [base; relief])
              else Ok (concatenate M [base; relief])) ;;
    Ok (stamp, if scad_exists M then ws else ws ++ [NoScadRaisedWarning])
  else
    let cutter := apply_translation M relief (0, 0, - relief_mm) in
    if scad_exists M then
      stamp <- lift (boolean_difference M [base; cutter]) ;;
      Ok (stamp, ws)
    else Ok (base, ws ++ [NoScadEngravedWarning]).

(** [convert_svg_to_stl(svg_bytes, out_stl_path, size_mm=..., mode=...,
    base_mm=..., relief_mm=..., min_line_mm=...)]: the report, and the mesh
    written to [out_stl_path]. *)
Definition convert_svg_to_stl (svg : option Svg.Element)
    (size base relief min_line : Q) (mode_arg : option string)
  : res (DimensionReport * Mesh M) :=
  '(ps, ws) <- relief_regions svg size min_line ;;
  let slab := base_slab size base in
  relief_mesh <- relief_volume ps base relief ;;
  let mode := normalize_mode mode_arg in
  if negb (String.eqb mode "raised" || String.eqb mode "engraved")
  then Raise (ConvertError InvalidMode)
  else
    '(stamp, ws) <- combine mode slab relief_mesh relief ws ;;
    if mesh_is_empty M stamp then Raise (ConvertError MeshExportFailure)
    else
      let stamp := process M stamp in
      let '((minx, miny, _), (maxx, maxy, _)) := mesh_bounds M stamp in
      Ok (mkReport size base relief mode (minx, miny, maxx, maxy)
            (Qsum (map area ps)) ws,
          stamp).

End Pipeline.

(* ------------------------------------------------------------------ *)
(** ** The request handler of backend/main.py *)

Module Backend.

Record Request : Type := mkRequest {
  filename : string;
  (** [len(svg_bytes)] and what [etree.fromstring] makes of the bytes *)
  body_size : nat;
  body : option Svg.Element;
  q_size_mm : Z;
  q_mode : string;
  q_base_mm : Q;
  q_relief_mm : Q;
  q_min_line_mm : Q
}.

Inductive Response (R : Type) : Type :=
| ValidationError                       (* FastAPI's 422 for a query constraint *)
| HttpError (status : nat) (detail : string)
| FileResponse (r : R)
| NoResponse.

Arguments ValidationError {R}.
Arguments HttpError {R} status detail.
Arguments FileResponse {R} r.
Arguments NoResponse {R}.

Definition ALLOWED_SIZES : list Z := [25; 30; 40]%Z.
Definition ALLOWED_MODES : list string := ["raised"; "engraved"]%string.

Definition between (lo v hi : Q) : bool := Qle_bool lo v && Qle_bool v hi.

(** The constraints declared in the signature of [generate]:
    [Literal["raised", "engraved"]], [ge=], [le=]. *)
Definition query_ok (r : Request) : bool :=
  existsb (String.eqb (q_mode r)) ALLOWED_MODES
  && between 2 (q_base_mm r) 20
  && between (6 # 10) (q_relief_mm r) 6
  && between (4 # 10) (q_min_line_mm r) 4.

Definition endswith (suffix s : list ascii) : bool :=
  Py.startswith (rev suffix) (rev s).

Section Generate.
Variable R : Type.
(** The pipeline the handler was imported with. *)
Variable convert : option Svg.Element -> Q -> Q -> Q -> Q -> option string -> res R.

(** [generate(file, size_mm, mode, base_mm, relief_mm, min_line_mm)] *)
Definition generate (r : Request) : Response R :=
  if negb (query_ok r) then ValidationError
  else if negb (existsb (Z.eqb (q_size_mm r)) ALLOWED_SIZES) then
    HttpError 400 "Invalid size. Allowed sizes: 25, 30, 40 mm."
  else if negb (existsb (String.eqb (q_mode r)) ALLOWED_MODES) then
    HttpError 400 "Invalid mode. Allowed: raised, engraved."
  else if negb (endswith (Py.chars ".svg") (Py.lower (Py.chars (filename r)))) then
    HttpError 400 "Please upload an SVG file (.svg)."
  else if (body_size r <? 50)%nat then
    HttpError 400 "The uploaded file is empty or too small to be a valid SVG."
  else
    match convert (body r) (inject_Z (q_size_mm r)) (q_base_mm r) (q_relief_mm r)
                  (q_min_line_mm r) (Some (q_mode r)) with
    | Ok rep => FileResponse rep
    | Raise (ConvertError e) => HttpError 400 (message e)
    | Raise _ =>
        HttpError 500 "Unexpected error while converting. Try simplifying the SVG and retry."
    | Diverge => NoResponse
    end.

End Generate.

End Backend.

(* ------------------------------------------------------------------ *)
(** ** A kernel for nested axis-aligned rectangles

    An executable instance of [GeomKernel] and [MeshKernel] on the class
    of drawings whose rings are axis-aligned rectangles, any two of them
    either nested or apart.  On that class the union, the repair and the
    solids are computed exactly; outside it every operation raises. *)

Module Boxes.
Import Geom.

(** [(minx, miny, maxx, maxy)] *)
Definition Box : Type := (Q * Q * Q * Q)%type.

Definition box_eqb (a b : Box) : bool :=
  let '(a1, a2, a3, a4) := a in
  let '(b1, b2, b3, b4) := b in
  Qeq_bool a1 b1 && Qeq_bool a2 b2 && Qeq_bool a3 b3 && Qeq_bool a4 b4.

(** [a] lies within [b], borders included. *)
Definition inside (a b : Box) : bool :=
  let '(a1, a2, a3, a4) := a in
  let '(b1, b2, b3, b4) := b in
  Qle_bool b1 a1 && Qle_bool b2 a2 && Qle_bool a3 b3 && Qle_bool a4 b4.

Definition properly_inside (a b : Box) : bool := inside a b && negb (box_eqb a b).

(** [a] lies within [b] and touches none of its sides. *)
Definition strictly_inside (a b : Box) : bool :=
  let '(a1, a2, a3, a4) := a in
  let '(b1, b2, b3, b4) := b in
  Qltb b1 a1 && Qltb b2 a2 && Qltb a3 b3 && Qltb a4 b4.

(** A gap separates [a] and [b]. *)
Definition apart (a b : Box) : bool :=
  let '(a1, a2, a3, a4) := a in
  let '(b1, b2, b3, b4) := b in
  Qltb a3 b1 || Qltb b3 a1 || Qltb a4 b2 || Qltb b4 a2.

Definition box_ring (b : Box) : ring :=
  let '(x0, y0, x1, y1) := b in
  [(x0, y0); (x1, y0); (x1, y1); (x0, y1); (x0, y0)].

Definition point_eqb (p q : point) : bool :=
  Qeq_bool (fst p) (fst q) && Qeq_bool (snd p) (snd q).

Fixpoint ring_eqb (r s : ring) : bool :=
  match r, s with
  | [], [] => true
  | p :: r', q :: s' => point_eqb p q && ring_eqb r' s'
  | _, _ => false
  end.

(** The ring without its closing point, when it has one. *)
Definition open_ring (r : ring) : ring :=
  match r with
  | p :: _ :: _ => if point_eqb p (last r p) then removelast r else r
  | _ => r
  end.

(** The four corners in both orientations, from every starting corner. *)
Definition corner_walks (b : Box) : list ring :=
  let '(x0, y0, x1, y1) := b in
  let c0 := (x0, y0) in let c1 := (x1, y0) in
  let c2 := (x1, y1) in let c3 := (x0, y1) in
  [[c0; c1; c2; c3]; [c1; c2; c3; c0]; [c2; c3; c0; c1]; [c3; c0; c1; c2];
   [c3; c2; c1; c0]; [c2; c1; c0; c3]; [c1; c0; c3; c2]; [c0; c3; c2; c1]].

(** The rectangle a ring draws, if it draws one of positive size. *)
Definition ring_box (r : ring) : option Box :=
  match bounds_of r with
  | Some (x0, y0, x1, y1) =>
      if Qltb x0 x1 && Qltb y0 y1
         && existsb (ring_eqb (open_ring r)) (corner_walks (x0, y0, x1, y1))
      then Some (x0, y0, x1, y1)
      else None
  | None => None
  end.

Fixpoint all_some {A : Type} (l : list (option A)) : option (list A) :=
  match l with
  | [] => Some []
  | Some a :: r => option_map (cons a) (all_some r)
  | None :: _ => None
  end.

(** A polygon as its shell box and its hole boxes. *)
Definition BoxPoly : Type := (Box * list Box)%type.

Definition poly_boxes (p : Polygon) : option BoxPoly :=
  match ring_box (exterior p), all_some (map ring_box (interiors p)) with
  | Some e, Some hs => Some (e, hs)
  | _, _ => None
  end.

Fixpoint polygons_of (g : Geometry) : option (list Polygon) :=
  match g with
  | GLineString [] => Some []
  | GLineString _ => None
  | GPolygon p => Some [p]
  | GMultiPolygon ps => Some ps
  | GCollection gs =>
      option_map (@concat _) (all_some (map polygons_of gs))
  end.

Definition box_polys (gs : list Geometry) : option (list BoxPoly) :=
  match all_some (map polygons_of gs) with
  | Some pss => all_some (map poly_boxes (concat pss))
  | None => None
  end.

Fixpoint dedupe (l : list Box) : list Box :=
  match l with
  | [] => []
  | b :: r => b :: filter (fun c => negb (box_eqb b c)) (dedupe r)
  end.

Definition all_boxes (ps : list BoxPoly) : list Box :=
  dedupe (flat_map (fun p => fst p :: snd p) ps).

Definition pairwise (rel : Box -> Box -> bool) (l : list Box) : bool :=
  forallb (fun a => forallb (fun b => box_eqb a b || rel a b) l) l.

(** Any two distinct rings are nested without touching, or apart. *)
Definition laminar (l : list Box) : bool :=
  pairwise (fun a b => strictly_inside a b || strictly_inside b a || apart a b) l.

(** Nested rings may share part of their border. *)
Definition nested_or_apart (l : list Box) : bool :=
  pairwise (fun a b => inside a b || inside b a || apart a b) l.

Section Regions.
(** Whether the area just inside a ring belongs to the result. *)
Variable fill : Box -> bool.
Variable boxes : list Box.

(** The innermost ring among those of [cands] around [b]. *)
Definition innermost_around (cands : Box -> bool) (b : Box) : option Box :=
  find (fun c =>
          cands c && properly_inside b c
          && forallb (fun c' => implb (cands c' && properly_inside b c')
                                      (inside c c')) boxes)
       boxes.

Definition parent_filled (b : Box) : bool :=
  match innermost_around (fun _ => true) b with
  | Some p => fill p
  | None => false
  end.

Definition is_shell (b : Box) : bool := fill b && negb (parent_filled b).
Definition is_hole (b : Box) : bool := negb (fill b) && parent_filled b.

Definition holes_of (e : Box) : list Box :=
  filter (fun h =>
            is_hole h &&
            match innermost_around is_shell h with
            | Some o => box_eqb o e
            | None => false
            end) boxes.

(** The regions bounded by the rings: one polygon per shell. *)
Definition regions : list Polygon :=
  map (fun e => mkPolygon (box_ring e) (map box_ring (holes_of e)))
      (filter is_shell boxes).

End Regions.

(** The area inside [b] is covered by one of the polygons. *)
Definition covered (ps : list BoxPoly) (b : Box) : bool :=
  existsb (fun p => inside b (fst p) && negb (existsb (inside b) (snd p))) ps.

(** The area inside [b] is enclosed by an odd number of rings. *)
Definition odd_depth (boxes : list Box) (b : Box) : bool :=
  Nat.odd (length (filter (inside b) boxes)).

(** What a union or repair hands back for a list of regions. *)
Definition to_geometry (ps : list Polygon) : Geometry :=
  match ps with
  | [] => GCollection []
  | [p] => GPolygon p
  | _ => GMultiPolygon ps
  end.

(** [unary_union]: the regions covered by at least one polygon. *)
Definition union (gs : list Geometry) : option Geometry :=
  match box_polys gs with
  | Some ps =>
      let boxes := all_boxes ps in
      if laminar boxes then Some (to_geometry (regions (covered ps) boxes))
      else None
  | None => None
  end.

(** [make_valid]: GEOS rebuilds the area from the noded rings, so the
    regions are those enclosed by an odd number of rings; a valid input
    keeps its regions. *)
Definition repair (g : Geometry) : option Geometry :=
  match box_polys [g] with
  | Some ps =>
      let boxes := all_boxes ps in
      if laminar boxes then Some (to_geometry (regions (odd_depth boxes) boxes))
      else None
  | None => None
  end.

(** [l] increases strictly. *)
Fixpoint increasing (l : list Q) : bool :=
  match l with
  | a :: (b :: _) as r => Qltb a b && increasing r
  | _ => true
  end.

Definition monotone (l : list Q) : bool := increasing l || increasing (rev l).

Definition constant (l : list Q) : bool :=
  match l with
  | [] => true
  | a :: r => forallb (Qeq_bool a) r
  end.

(** The band around a straight horizontal or vertical line with flat
    caps: the line's extent, widened by [d] across it. *)
Definition band (pts : list point) (d : Q) : option Box :=
  match bounds_of pts, pts with
  | Some (x0, y0, x1, y1), _ :: _ :: _ =>
      if constant (map snd pts) && monotone (map fst pts)
      then Some (x0, y0 - d, x1, y1 + d)
      else if constant (map fst pts) && monotone (map snd pts)
      then Some (x0 - d, y0, x1 + d, y1)
      else None
  | _, _ => None
  end.

(** [buffer]: by zero it dissolves overlaps; a straight line with flat
    caps grows into its band; the rest is outside the class. *)
Definition grow (g : Geometry) (d : Q) (cap : cap_style) (_ : join_style)
  : option Geometry :=
  if Qeq_bool d 0 then union [g]
  else
    match g, cap with
    | GLineString pts, CapFlat =>
        if Qltb 0 d
        then option_map (fun b => GPolygon (mkPolygon (box_ring b) [])) (band pts d)
        else None
    | _, _ => None
    end.

Definition geom : GeomKernel :=
  {| make_valid := repair;
     unary_union := union;
     buffer := grow;
     point_buffer := fun _ _ _ _ => None |}.

(** A solid as a set of prisms: a footprint extruded over a height range. *)
Record Prism : Type := mkPrism {
  footprint : Polygon;
  zlo : Q;
  zhi : Q
}.

Definition Solid : Type := list Prism.

Definition slab (sx sy sz : Q) : Solid :=
  [mkPrism (mkPolygon (box_ring (- (sx / 2), - (sy / 2), sx / 2, sy / 2)) [])
           (- (sz / 2)) (sz / 2)].

Definition move (m : Solid) (d : Q * Q * Q) : Solid :=
  let '(dx, dy, dz) := d in
  map (fun pr => mkPrism (map_polygon (translate_point dx dy) (footprint pr))
                         (zlo pr + dz) (zhi pr + dz)) m.

(** The footprint of [p] outside [cut]. *)
Definition footprint_minus (p cut : Polygon) : option (list Polygon) :=
  match poly_boxes p, poly_boxes cut with
  | Some bp, Some bc =>
      let boxes := all_boxes [bp; bc] in
      if nested_or_apart boxes
      then Some (regions (fun b => covered [bp] b && negb (covered [bc] b)) boxes)
      else None
  | _, _ => None
  end.

(** One prism less one cutting prism: the layers below and above the cut
    keep the footprint, the layer within it loses the cutter's. *)
Definition prism_minus (pr cut : Prism) : option Solid :=
  let lo := qmax (zlo pr) (zlo cut) in
  let hi := qmin (zhi pr) (zhi cut) in
  if Qltb lo hi then
    match footprint_minus (footprint pr) (footprint cut) with
    | Some fs =>
        Some ((if Qltb (zlo pr) lo then [mkPrism (footprint pr) (zlo pr) lo] else [])
              ++ map (fun f => mkPrism f lo hi) fs
              ++ (if Qltb hi (zhi pr) then [mkPrism (footprint pr) hi (zhi pr)] else []))
    | None => None
    end
  else Some [pr].

Fixpoint solid_minus_prism (m : Solid) (cut : Prism) : option Solid :=
  match m with
  | [] => Some []
  | pr :: rest =>
      match prism_minus pr cut, solid_minus_prism rest cut with
      | Some a, Some b => Some (a ++ b)
      | _, _ => None
      end
  end.

Fixpoint solid_minus (m cutter : Solid) : option Solid :=
  match cutter with
  | [] => Some m
  | c :: rest =>
      match solid_minus_prism m c with
      | Some m' => solid_minus m' rest
      | None => None
      end
  end.

Definition difference (ms : list Solid) : option Solid :=
  match ms with
  | [a; b] => solid_minus a b
  | _ => None
  end.

Definition solid_bounds (m : Solid) : (Q * Q * Q) * (Q * Q * Q) :=
  match bounds_of (flat_map (fun pr => poly_coords (footprint pr)) m), m with
  | Some (x0, y0, x1, y1), pr :: rest =>
      ((x0, y0, minimum (zlo pr) (map zlo rest)),
       (x1, y1, maximum (zhi pr) (map zhi rest)))
  | _, _ => ((0, 0, 0), (0, 0, 0))
  end.

(** [scad]: OpenSCAD is installed; [triangulator]: the engine that
    [extrude_polygon] needs is installed. *)
Definition mesh (scad triangulator : bool) : MeshKernel :=
  {| Mesh := Solid;
     box := slab;
     extrude_polygon := fun p h =>
       if triangulator then Some [mkPrism p 0 h] else None;
     apply_translation := move;
     concatenate := @concat _;
     boolean_union := fun ms => Some (concat ms);
     boolean_difference := difference;
     mesh_is_empty := @Py.is_nil _;
     process := fun m => m;
     mesh_bounds := solid_bounds;
     scad_exists := scad |}.

End Boxes.

Unset Implicit Arguments.

(* ------------------------------------------------------------------ *)
(** ** Vocabulary of the statements *)



(** The vertical extent of a mesh, read off [mesh.bounds]. *)
Definition mesh_bottom (M : MeshKernel) (m : Mesh M) : Q :=
  let '((_, _, z0), _) := mesh_bounds M m in z0.

Definition mesh_top (M : MeshKernel) (m : Mesh M) : Q :=
  let '(_, (_, _, z1)) := mesh_bounds M m in z1.

Definition mesh_height (M : MeshKernel) (m : Mesh M) : Q :=
  (mesh_top M m - mesh_bottom M m)%Q.

(** The parameter bounds of the request handler. *)
Definition in_bounds (size : Z) (base relief min_line : Q) : Prop :=
  In size Backend.ALLOWED_SIZES
  /\ (2 <= base /\ base <= 20)%Q
  /\ ((6 # 10) <= relief /\ relief <= 6)%Q
  /\ ((4 # 10) <= min_line /\ min_line <= 4)%Q.

(** Tokens as the tokenizer produces them: a command token holds one of
    the ten supported letters. *)
Definition tok_ok (t : Path.token) : Prop :=
  match t with
  | Path.TCmd c => Path.is_path_cmd c = true
  | Path.TNum _ => True
  end.

(** The exceptions the path loop raises on such tokens. *)
Definition loop_exn (e : exn) : Prop :=
  e = IndexError \/ e = ValueError \/ e = ConvertError PathNumbersBeforeCommand.

Definition cmd_ok (st : Path.state) : Prop :=
  match Path.cmd st with
  | None => True
  | Some c => Path.is_path_cmd c = true
  end.

(** A state the path loop cannot leave: the command is a close-path and
    the token under the cursor is a number, which no branch consumes. *)
Definition stuck (tokens : list Path.token) (st : Path.state) : Prop :=
  exists c s, Path.cmd st = Some c /\ Path.one_of c "Z" "z" = true
              /\ nth_error tokens (Path.i st) = Some (Path.TNum s).

(** A map of a coordinate that preserves order. *)
Definition order_preserving (h : Q -> Q) : Prop :=
  (forall a b, a < b -> h a < h b)%Q /\ (forall a b, a == b -> h a == h b)%Q.

(** The test of [_remove_small_holes] on one ring. *)
Definition big_enough (thr : Q) (r : ring) : bool := Qle_bool thr (Geom.ring_area r).

Definition holes_big_enough (ps : list Polygon) : Prop :=
  forall p r, In p ps -> In r (interiors p) -> big_enough min_hole_area r = true.

(** A region the mesh-building loop does not pass over. *)
Definition printable (p : Polygon) : bool := negb (skipped p).

(** Which conversion errors a computation can raise. *)
Definition within (allowed : convert_error -> bool) (e : exn) : Prop :=
  match e with
  | ConvertError c => allowed c = true
  | _ => True
  end.

Definition only (allowed : convert_error -> bool) {A : Type} (r : res A) : Prop :=
  match r with
  | Raise e => within allowed e
  | _ => True
  end.

Definition path_error (c : convert_error) : bool :=
  match c with
  | PathNumbersBeforeCommand => true
  | _ => false
  end.

(** The 2D stages raise no other conversion error than these. *)
Definition geometry_error (c : convert_error) : bool :=
  match c with
  | PathNumbersBeforeCommand | InvalidInput | UnsupportedContent | NoShapesFound
  | DegenerateBounds | BadScaleFactor | EmptyAfterBuffer | EmptyAfterCleanup => true
  | _ => false
  end.

Definition mesh_error (c : convert_error) : bool :=
  match c with
  | MeshBuildFailure | EmptyResult => true
  | _ => false
  end.

(** A close-path command directly followed by a number. *)
Definition number_after_close (tokens : list Path.token) : Prop :=
  exists k c s,
    nth_error tokens k = Some (Path.TCmd c) /\ Path.one_of c "Z" "z" = true
    /\ nth_error tokens (S k) = Some (Path.TNum s).

(** A close-path command in [cmd] was set by the token just before the
    cursor. *)
Definition close_is_fresh (tokens : list Path.token) (st : Path.state) : Prop :=
  forall c, Path.cmd st = Some c -> Path.one_of c "Z" "z" = true ->
    exists k, Path.i st = S k /\ nth_error tokens k = Some (Path.TCmd c).

(** A text made of decimal digits. *)
Definition digits (l : list ascii) : Prop := forallb Py.is_digit l = true.

(** The text starts with the character. *)
Definition headb (c : ascii) (s : list ascii) : bool :=
  match s with
  | a :: _ => Ascii.eqb a c
  | [] => false
  end.

(** The text that the exponent group of the number pattern can match. *)
Definition exponent_text (ex : list ascii) : Prop :=
  ex = []
  \/ exists c sg ed,
       ex = c :: sg ++ ed /\ (c = "e"%char \/ c = "E"%char)
       /\ (sg = [] \/ sg = ["-"%char] \/ sg = ["+"%char])
       /\ ed <> [] /\ forallb Py.is_digit ed = true.

(** What the extractor hands on: an open curve of at least three points,
    or a polygon. *)
Definition raw_primitive (g : Geometry) : Prop :=
  match g with
  | GLineString pts => (3 <= length pts)%nat
  | GPolygon _ => True
  | _ => False
  end.


(** Warnings about removed holes, each for at least one hole. *)
Definition hole_warnings (l : list warning) : Prop :=
  Forall (fun w => exists n, w = HolesRemovedWarning (S n)) l.

(** The geometry a stage returns, without its warnings. *)
Definition outcome_geometry {A B : Type} (r : res (A * B)) : res A :=
  bind r (fun p => Ok (fst p)).

(** The warning of the fallback when OpenSCAD is missing. *)
Definition scad_warning (M : MeshKernel) (mode : string) : list warning :=
  if scad_exists M then []
  else [if String.eqb mode "raised" then NoScadRaisedWarning
        else NoScadEngravedWarning].

(** The warning of the minimum-width enforcer. *)
Definition width_warning (min_line : Q) : list warning :=
  if Geom.Qltb 1 (half_width min_line) then [LargeMinLineWarning] else [].



(* ------------------------------------------------------------------ *)
(** ** Concrete drawings *)

Module Examples.

Definition SVG_NS : string := "http://www.w3.org/2000/svg".

Definition svg_tag (name : string) : string := ("{" ++ SVG_NS ++ "}" ++ name)%string.

Definition rect (x y w h : string) : Svg.Element :=
  Svg.Elem (svg_tag "rect")
    [("x", x); ("y", y); ("width", w); ("height", h)]%string [].

Definition path (d : string) : Svg.Element :=
  Svg.Elem (svg_tag "path") [("d", d)]%string [].

Definition drawing (shapes : list Svg.Element) : Svg.Element :=
  Svg.Elem (svg_tag "svg") [] shapes.

(** One 10 x 10 square. *)
Definition square_drawing : Svg.Element := drawing [rect "0" "0" "10" "10"].

(** One straight stroke, 10 long. *)
Definition stroke_drawing : Svg.Element := drawing [path "M 0 0 L 5 0 L 10 0"].


Definition square (x0 y0 x1 y1 : Q) : ring := Boxes.box_ring (x0, y0, x1, y1).



(** The plate with a 2 x 2 hole as well (area 4, over the threshold). *)
Definition plate_two_holes : Polygon :=
  mkPolygon (square 0 0 10 10)
    [square 4 4 (43 # 10) (43 # 10); square 6 6 8 8].


Definition oversized_request : Backend.Request :=
  Backend.mkRequest "stamp.svg" 120 (Some square_drawing)
    50 "raised" 7 (22 # 10) (14 # 10).

End Examples.

(* ------------------------------------------------------------------ *)
(** ** The path interpreter *)

Module PathFacts.
Import Path.

Lemma findall_cmds : forall s skip, Forall tok_ok (findall s skip).
Proof.
  induction s as [|c s IH]; intros skip; simpl; [constructor|].
  destruct skip as [|k]; [|apply IH].
  destruct (is_path_cmd c) eqn:Hc.
  - constructor; [exact Hc | apply IH].
  - destruct (match_number (c :: s)); [constructor; [exact I | apply IH] | apply IH].
Qed.

Lemma path_cmd_cases : forall c, is_path_cmd c = true ->
  In c ["M"; "m"; "L"; "l"; "H"; "h"; "V"; "v"; "Z"; "z"]%char.
Proof.
  intros c H. unfold is_path_cmd in H.
  apply existsb_exists in H. destruct H as [a [Hin Heq]].
  apply Ascii.eqb_eq in Heq. subst a. exact Hin.
Qed.

Section Loop.
Variable tokens : list token.
Hypothesis tokens_ok : Forall tok_ok tokens.

Lemma read_num_cases : forall st,
  (exists v, read_num tokens st =
             Ok (v, mkState (S (i st)) (cmd st) (x st) (y st) (start st) (pts st)))
  \/ read_num tokens st = Raise IndexError
  \/ read_num tokens st = Raise ValueError.
Proof.
  intros st. unfold read_num.
  destruct (nth_error tokens (i st)) as [[c|s]|]; auto.
  destruct (Py.float s); eauto.
Qed.

Lemma dispatch_sound : forall c st, is_path_cmd c = true ->
  cmd_ok st ->
  match dispatch tokens c st with
  | Ok st' => cmd_ok st'
  | Raise e => loop_exn e
  | Diverge => False
  end.
Proof.
  intros c st Hc Hst. apply path_cmd_cases in Hc. unfold loop_exn.
  simpl in Hc.
  repeat (destruct Hc as [Hc|Hc]; [subst c|]); try contradiction;
    unfold dispatch, one_of; simpl;
    try (destruct (read_num_cases st) as [[v1 E1]|[E1|E1]]; rewrite E1; simpl; auto;
         try (match goal with
              | |- context [read_num tokens ?s] =>
                  destruct (read_num_cases s) as [[v2 E2]|[E2|E2]]; rewrite E2; simpl; auto
              end));
    try (unfold cmd_ok; simpl; auto; fail).
  all: unfold cmd_ok, append_start; destruct (start st); simpl; auto.
Qed.

Lemma step_sound : forall st, cmd_ok st ->
  match step tokens st with
  | Ok st' => cmd_ok st'
  | Raise e => loop_exn e
  | Diverge => False
  end.
Proof.
  intros st Hst. unfold step.
  destruct (nth_error tokens (i st)) as [[c|s]|] eqn:E.
  - assert (Hc : is_path_cmd c = true).
    { apply nth_error_In in E.
      apply (proj1 (Forall_forall _ _) tokens_ok) in E. exact E. }
    destruct (one_of c "Z" "z").
    + unfold cmd_ok, append_start; simpl.
      destruct (start st); simpl; exact Hc.
    + pose proof (dispatch_sound c
        (mkState (S (i st)) (Some c) (x st) (y st) (start st) (pts st)) Hc) as H.
      destruct (dispatch tokens c _); auto.
  - destruct (cmd st) as [c|] eqn:Ec.
    + assert (Hc : is_path_cmd c = true).
      { unfold cmd_ok in Hst. rewrite Ec in Hst. exact Hst. }
      pose proof (dispatch_sound c st Hc) as H.
      destruct (dispatch tokens c st); auto.
    + unfold loop_exn. auto.
  - exact Hst.
Qed.

Lemma run_sound : forall fuel st, cmd_ok st ->
  match run tokens fuel st with
  | Ok st' => cmd_ok st'
  | Raise e => loop_exn e
  | Diverge => True
  end.
Proof.
  induction fuel as [|f IH]; intros st Hst; simpl.
  - destruct (i st <? length tokens)%nat; auto.
  - destruct (i st <? length tokens)%nat; auto.
    pose proof (step_sound st Hst) as H.
    destruct (step tokens st) as [st'| |]; [apply IH; exact H | exact H | exact I].
Qed.

Lemma close_cmd : forall c, one_of c "Z" "z" = true ->
  dispatch tokens c = fun st => Ok (append_start st).
Proof.
  intros c H. unfold one_of in H. apply orb_true_iff in H.
  destruct H as [H|H]; apply Ascii.eqb_eq in H; subst c; reflexivity.
Qed.

Lemma append_start_same : forall st,
  i (append_start st) = i st /\ cmd (append_start st) = cmd st.
Proof. intros st. unfold append_start. destruct (start st); auto. Qed.

Lemma stuck_step : forall st, stuck tokens st ->
  exists st', step tokens st = Ok st' /\ stuck tokens st'.
Proof.
  intros st [c [s [Hc [Hz Hn]]]].
  exists (append_start st). split.
  - unfold step. rewrite Hn, Hc, (close_cmd c Hz). reflexivity.
  - destruct (append_start_same st) as [Ei Ec].
    exists c, s. rewrite Ei, Ec. auto.
Qed.

Lemma stuck_forever : forall fuel st, stuck tokens st -> run tokens fuel st = Diverge.
Proof.
  induction fuel as [|f IH]; intros st Hs.
  - destruct Hs as [c [s [_ [_ Hn]]]]. simpl.
    assert (Hlt : (i st < length tokens)%nat)
      by (apply nth_error_Some; rewrite Hn; discriminate).
    apply Nat.ltb_lt in Hlt. rewrite Hlt. reflexivity.
  - pose proof Hs as [c [s [_ [_ Hn]]]]. simpl.
    assert (Hlt : (i st < length tokens)%nat)
      by (apply nth_error_Some; rewrite Hn; discriminate).
    apply Nat.ltb_lt in Hlt. rewrite Hlt.
    destruct (stuck_step st Hs) as [st' [E Hs']]. rewrite E. apply IH, Hs'.
Qed.

Lemma dispatch_progress : forall c st st',
  dispatch tokens c st = Ok st' ->
  one_of c "Z" "z" = true \/ (i st < i st')%nat.
Proof.
  intros c st st'. unfold dispatch.
  repeat match goal with
  | |- context [if one_of c ?a ?b then _ else _] => destruct (one_of c a b); auto
  | |- context [read_num tokens ?s] =>
      destruct (read_num_cases s) as [[? E]|[E|E]]; rewrite E; clear E; simpl;
      try discriminate
  | |- context [if Ascii.eqb ?a ?b then _ else _] => destruct (Ascii.eqb a b); simpl
  end;
  try (intros E; inversion E; subst; simpl; right; lia);
  discriminate.
Qed.

Lemma dispatch_returns : forall c st, dispatch tokens c st <> Diverge.
Proof.
  intros c st. unfold dispatch.
  repeat match goal with
  | |- context [if one_of c ?a ?b then _ else _] => destruct (one_of c a b)
  | |- context [read_num tokens ?s] =>
      destruct (read_num_cases s) as [[? E]|[E|E]]; rewrite E; clear E; simpl
  | |- context [if Ascii.eqb ?a ?b then _ else _] => destruct (Ascii.eqb a b); simpl
  end; discriminate.
Qed.

Lemma step_returns : forall st, step tokens st <> Diverge.
Proof.
  intros st. unfold step.
  destruct (nth_error tokens (i st)) as [[c|s]|]; try discriminate.
  - destruct (one_of c "Z" "z"); [discriminate | apply dispatch_returns].
  - destruct (cmd st); [apply dispatch_returns | discriminate].
Qed.

Lemma step_progress : forall st st',
  (i st < length tokens)%nat -> step tokens st = Ok st' ->
  stuck tokens st \/ (i st < i st')%nat.
Proof.
  intros st st' Hlt. unfold step.
  destruct (nth_error tokens (i st)) as [[c|s]|] eqn:E.
  - destruct (one_of c "Z" "z") eqn:Hz.
    + intros H; inversion H; subst.
      right. rewrite (proj1 (append_start_same _)). simpl. lia.
    + intros H. apply dispatch_progress in H. simpl in H.
      destruct H as [H|H]; [congruence | right; lia].
  - destruct (cmd st) as [c|] eqn:Ec; [|discriminate].
    intros H. apply dispatch_progress in H.
    destruct H as [H|H]; [left; exists c, s; auto | right; exact H].
  - apply nth_error_None in E. lia.
Qed.

(** With a fuel of at least the number of tokens left, running out of it
    means the loop never ends. *)
Lemma hang_is_real : forall fuel st,
  (length tokens - i st <= fuel)%nat ->
  run tokens fuel st = Diverge ->
  forall fuel', run tokens fuel' st = Diverge.
Proof.
  induction fuel as [|f IH]; intros st Hf Hd fuel'.
  - simpl in Hd. destruct (i st <? length tokens)%nat eqn:E; [|discriminate].
    apply Nat.ltb_lt in E. lia.
  - simpl in Hd. destruct (i st <? length tokens)%nat eqn:E; [|discriminate].
    pose proof E as Hlt. apply Nat.ltb_lt in Hlt.
    destruct (step tokens st) as [st'| |] eqn:Es; try discriminate.
    + destruct (step_progress st st' Hlt Es) as [Hs|Hp].
      * apply stuck_forever, Hs.
      * destruct fuel' as [|g]; simpl; rewrite E; [reflexivity|].
        rewrite Es. apply IH; [lia | exact Hd].
    + exfalso. exact (step_returns st Es).
Qed.

(** A result, once reached, is the result for every larger fuel. *)
Lemma more_fuel : forall fuel st r,
  run tokens fuel st = r -> r <> Diverge -> run tokens (S fuel) st = r.
Proof.
  induction fuel as [|f IH]; intros st r Hr Hn.
  - simpl in *. destruct (i st <? length tokens)%nat; congruence.
  - simpl in Hr. simpl. destruct (i st <? length tokens)%nat; [|exact Hr].
    destruct (step tokens st) as [st'| |]; try exact Hr.
    apply IH; assumption.
Qed.

End Loop.

Lemma path_exceptions : forall d e,
  _path_to_linestring d = Raise e -> loop_exn e.
Proof.
  intros d e. unfold _path_to_linestring.
  destruct d as [|c d']; [discriminate|].
  destruct (tokenize (String c d')) as [|t ts] eqn:Et; [discriminate|].
  pose proof (@run_sound (t :: ts)) as H.
  rewrite <- Et in *.
  specialize (H (findall_cmds _ _) (length (tokenize (String c d'))) init I).
  destruct (run _ _ init) as [st| |]; simpl.
  - destruct (length (pts st) <? 3)%nat; discriminate.
  - intros E; inversion E; subst; exact H.
  - discriminate.
Qed.

Lemma path_hang_is_real : forall d,
  _path_to_linestring d = Diverge ->
  forall fuel, run (tokenize d) fuel init = Diverge.
Proof.
  intros d. unfold _path_to_linestring.
  destruct d as [|c d']; [discriminate|].
  destruct (tokenize (String c d')) as [|t ts] eqn:Et; [discriminate|].
  rewrite <- Et.
  destruct (run (tokenize (String c d')) (length (tokenize (String c d'))) init)
    as [st| |] eqn:Er; simpl.
  - destruct (length (pts st) <? 3)%nat; discriminate.
  - discriminate.
  - intros _.
    apply hang_is_real with (fuel := length (tokenize (String c d')));
      [simpl; lia | exact Er].
Qed.

End PathFacts.

(* ------------------------------------------------------------------ *)
(** ** Bounds under affine maps *)

Module GeomFacts.
Import Geom.
Local Open Scope Q_scope.

Lemma Qltb_lt : forall a b, Qltb a b = true <-> a < b.
Proof.
  intros a b. unfold Qltb. rewrite negb_true_iff.
  split; intros H.
  - apply Qnot_le_lt. intros Hle. apply Qle_bool_iff in Hle. congruence.
  - destruct (Qle_bool b a) eqn:E; [|reflexivity].
    apply Qle_bool_iff in E. exfalso. apply (Qlt_not_le _ _ H E).
Qed.

Lemma Qltb_ge : forall a b, Qltb a b = false <-> b <= a.
Proof.
  intros a b. unfold Qltb. rewrite negb_false_iff. apply Qle_bool_iff.
Qed.

Lemma Qle_bool_gt : forall a b, Qle_bool a b = false <-> b < a.
Proof.
  intros a b. rewrite <- Qltb_lt. unfold Qltb.
  destruct (Qle_bool a b); simpl; split; congruence.
Qed.

Lemma py_max_spec : forall a b,
  (a < b /\ py_max a b = b) \/ (b <= a /\ py_max a b = a).
Proof.
  intros a b. unfold py_max. destruct (Qltb a b) eqn:E.
  - left. apply Qltb_lt in E. auto.
  - right. apply Qltb_ge in E. auto.
Qed.

Lemma scaling_increasing : forall f k, 0 < f -> order_preserving (fun x => f * x + k).
Proof.
  intros f k Hf. split; intros a b H.
  - nra.
  - rewrite H. reflexivity.
Qed.

Lemma shift_increasing : forall t, order_preserving (fun x => x + t).
Proof.
  intros t. split; intros a b H.
  - lra.
  - rewrite H. reflexivity.
Qed.

Lemma qmin_increasing : forall h a X Y, order_preserving h -> X == h Y ->
  qmin (h a) X == h (qmin a Y).
Proof.
  intros h a X Y [Hlt Heq] HX. unfold qmin.
  destruct (Qle_bool (h a) X) eqn:E1; destruct (Qle_bool a Y) eqn:E2;
    try reflexivity; try exact HX.
  - apply Qle_bool_iff in E1. apply Qle_bool_gt in E2.
    apply Hlt in E2. lra.
  - apply Qle_bool_gt in E1. apply Qle_bool_iff in E2.
    destruct (Qlt_le_dec a Y) as [H|H].
    + apply Hlt in H. lra.
    + assert (E : a == Y) by lra. apply Heq in E. lra.
Qed.

Lemma qmax_increasing : forall h a X Y, order_preserving h -> X == h Y ->
  qmax (h a) X == h (qmax a Y).
Proof.
  intros h a X Y [Hlt Heq] HX. unfold qmax.
  destruct (Qle_bool (h a) X) eqn:E1; destruct (Qle_bool a Y) eqn:E2;
    try reflexivity; try exact HX.
  - apply Qle_bool_iff in E1. apply Qle_bool_gt in E2.
    apply Hlt in E2. lra.
  - apply Qle_bool_gt in E1. apply Qle_bool_iff in E2.
    destruct (Qlt_le_dec a Y) as [H|H].
    + apply Hlt in H. lra.
    + assert (E : a == Y) by lra. apply Heq in E. lra.
Qed.

Lemma minimum_increasing : forall h l a, order_preserving h ->
  minimum (h a) (map h l) == h (minimum a l).
Proof.
  intros h l. induction l as [|b l IH]; intros a Hh; simpl.
  - reflexivity.
  - apply qmin_increasing; auto.
Qed.

Lemma maximum_increasing : forall h l a, order_preserving h ->
  maximum (h a) (map h l) == h (maximum a l).
Proof.
  intros h l. induction l as [|b l IH]; intros a Hh; simpl.
  - reflexivity.
  - apply qmax_increasing; auto.
Qed.

Lemma minimum_le_maximum : forall l a, minimum a l <= maximum a l.
Proof.
  induction l as [|b l IH]; intros a; simpl.
  - lra.
  - specialize (IH b). unfold qmin, qmax.
    destruct (Qle_bool a (minimum b l)) eqn:E1;
    destruct (Qle_bool a (maximum b l)) eqn:E2;
      try apply Qle_bool_iff in E1; try apply Qle_bool_iff in E2;
      try apply Qle_bool_gt in E1; try apply Qle_bool_gt in E2; lra.
Qed.

(** Induction on geometries, through the members of a collection. *)
Lemma Geometry_nested_ind (P : Geometry -> Prop) :
  (forall pts, P (GLineString pts)) ->
  (forall p, P (GPolygon p)) ->
  (forall ps, P (GMultiPolygon ps)) ->
  (forall gs, Forall P gs -> P (GCollection gs)) ->
  forall g, P g.
Proof.
  intros HL HP HM HC.
  fix IH 1. intros [pts|p|ps|gs].
  - apply HL.
  - apply HP.
  - apply HM.
  - apply HC. induction gs as [|g gs IHgs]; constructor; [apply IH | exact IHgs].
Qed.

Lemma poly_coords_map : forall f p,
  poly_coords (map_polygon f p) = map f (poly_coords p).
Proof.
  intros f [e hs]. unfold poly_coords, map_polygon. simpl.
  rewrite map_app. f_equal.
  induction hs as [|h hs IH]; simpl; [reflexivity|].
  rewrite map_app, IH. reflexivity.
Qed.

Lemma coords_map : forall f g, coords (map_geometry f g) = map f (coords g).
Proof.
  intros f g. induction g as [pts|p|ps|gs IH] using Geometry_nested_ind; simpl.
  - reflexivity.
  - apply poly_coords_map.
  - induction ps as [|p ps IHp]; simpl; [reflexivity|].
    rewrite map_app, poly_coords_map, IHp. reflexivity.
  - induction IH as [|g gs Hg _ IHgs]; simpl; [reflexivity|].
    rewrite map_app, Hg, IHgs. reflexivity.
Qed.

(** The bounds of a geometry moved by an order-preserving map of each
    coordinate. *)
Lemma bounds_increasing : forall hx hy g x0 y0 x1 y1,
  order_preserving hx -> order_preserving hy ->
  bounds g = Some (x0, y0, x1, y1) ->
  exists a b c d,
    bounds (map_geometry (fun p => (hx (fst p), hy (snd p))) g) = Some (a, b, c, d)
    /\ a == hx x0 /\ b == hy y0 /\ c == hx x1 /\ d == hy y1.
Proof.
  intros hx hy g x0 y0 x1 y1 Hx Hy. unfold bounds.
  rewrite coords_map. destruct (coords g) as [|[px py] r]; simpl; [discriminate|].
  intros H. inversion H; subst; clear H.
  do 4 eexists. split; [reflexivity|].
  match goal with
  | |- context [map fst ?l] =>
      assert (Ex : map fst l = map hx (map fst r))
        by (rewrite !map_map; reflexivity);
      assert (Ey : map snd l = map hy (map snd r))
        by (rewrite !map_map; reflexivity)
  end.
  rewrite Ex, Ey.
  repeat split.
  - apply minimum_increasing; assumption.
  - apply minimum_increasing; assumption.
  - apply maximum_increasing; assumption.
  - apply maximum_increasing; assumption.
Qed.

Lemma bounds_scale : forall f g x0 y0 x1 y1, 0 < f ->
  bounds g = Some (x0, y0, x1, y1) ->
  exists a b c d,
    bounds (shp_scale g f f (0, 0)) = Some (a, b, c, d)
    /\ a == f * x0 /\ b == f * y0 /\ c == f * x1 /\ d == f * y1.
Proof.
  intros f g x0 y0 x1 y1 Hf Hb.
  destruct (bounds_increasing (fun x => f * x + (0 - 0 * f))
              (fun y => f * y + (0 - 0 * f)) g x0 y0 x1 y1
              (scaling_increasing f _ Hf) (scaling_increasing f _ Hf) Hb)
    as [a [b [c [d [E [Ha [Hb' [Hc Hd]]]]]]]].
  exists a, b, c, d. split; [exact E|].
  repeat split; [rewrite Ha | rewrite Hb' | rewrite Hc | rewrite Hd]; ring.
Qed.

Lemma bounds_translate : forall tx ty g x0 y0 x1 y1,
  bounds g = Some (x0, y0, x1, y1) ->
  exists a b c d,
    bounds (translate g tx ty) = Some (a, b, c, d)
    /\ a == x0 + tx /\ b == y0 + ty /\ c == x1 + tx /\ d == y1 + ty.
Proof.
  intros tx ty g x0 y0 x1 y1 Hb.
  exact (bounds_increasing (fun x => x + tx) (fun y => y + ty) g x0 y0 x1 y1
           (shift_increasing tx) (shift_increasing ty) Hb).
Qed.

Lemma bounds_ordered : forall g x0 y0 x1 y1,
  bounds g = Some (x0, y0, x1, y1) -> x0 <= x1 /\ y0 <= y1.
Proof.
  intros g x0 y0 x1 y1. unfold bounds.
  destruct (coords g) as [|[px py] r]; simpl; [discriminate|].
  intros H; inversion H; subst. split; apply minimum_le_maximum.
Qed.


End GeomFacts.

(* ------------------------------------------------------------------ *)
(** ** Hole removal; origins of exceptions *)

Module HoleFacts.
Import Geom GeomFacts.
Local Open Scope Q_scope.

Lemma fold_holes : forall thr l keep n,
  fold_left (hole_step thr) l (keep, n)
  = (keep ++ filter (big_enough thr) l,
     (n + length (filter (fun r => negb (big_enough thr r)) l))%nat).
Proof.
  intros thr l. induction l as [|r l IH]; intros keep n; simpl.
  - rewrite app_nil_r, Nat.add_0_r. reflexivity.
  - assert (Hs : hole_step thr (keep, n) r
                 = if big_enough thr r then (keep ++ [r], n) else (keep, S n))
      by reflexivity.
    rewrite Hs. destruct (big_enough thr r); rewrite IH; simpl.
    + rewrite <- app_assoc. reflexivity.
    + f_equal. lia.
Qed.

Lemma remove_small_holes_filter : forall poly thr ws,
  _remove_small_holes poly thr ws
  = (mkPolygon (exterior poly) (filter (big_enough thr) (interiors poly)),
     match length (filter (fun r => negb (big_enough thr r)) (interiors poly)) with
     | O => ws
     | n => ws ++ [HolesRemovedWarning n]
     end).
Proof.
  intros [e hs] thr ws. unfold _remove_small_holes. simpl.
  destruct hs as [|h hs]; [reflexivity|].
  rewrite fold_holes. cbn [app Nat.add].
  destruct (length (filter _ (h :: hs))); reflexivity.
Qed.



Lemma remove_small_holes_kept : forall poly thr ws r,
  In r (interiors (fst (_remove_small_holes poly thr ws))) ->
  big_enough thr r = true.
Proof.
  intros poly thr ws r. rewrite remove_small_holes_filter. simpl.
  intros H. apply filter_In in H. apply H.
Qed.

Lemma remove_holes_each_kept : forall ps ws,
  holes_big_enough (fst (remove_holes_each ps ws)).
Proof.
  induction ps as [|p ps IH]; intros ws q r; simpl.
  - intros [].
  - destruct (_remove_small_holes p min_hole_area ws) as [p2 ws1] eqn:E1.
    destruct (remove_holes_each ps ws1) as [rest ws2] eqn:E2. simpl.
    intros [Hq|Hq] Hr.
    + subst q. apply (remove_small_holes_kept p min_hole_area ws).
      rewrite E1. exact Hr.
    + apply (IH ws1 q r); [rewrite E2; exact Hq | exact Hr].
Qed.


End HoleFacts.

Module Raises.

Lemma only_bind : forall allowed A B (m : res A) (k : A -> res B),
  only allowed m -> (forall a, only allowed (k a)) -> only allowed (bind m k).
Proof. intros allowed A B [a|e|] k Hm Hk; simpl; auto. Qed.

Lemma only_lift : forall allowed A (o : option A), only allowed (lift o).
Proof. intros allowed A [a|]; exact I. Qed.

Lemma only_try : forall allowed A (m : res A) h,
  (forall e, only allowed (h e)) -> only allowed (try_except m h).
Proof. intros allowed A [a|e|] h H; simpl; auto. Qed.

Lemma only_weaken : forall (a1 a2 : convert_error -> bool) A (r : res A),
  (forall c, a1 c = true -> a2 c = true) -> only a1 r -> only a2 r.
Proof.
  intros a1 a2 A [a|[c| | | |]|] H; simpl; auto.
Qed.

End Raises.

Module Origins.
Import Raises.

Ltac only_step :=
  first
    [ exact I
    | reflexivity
    | apply only_lift
    | apply only_try; intros
    | apply only_bind; [| intros]
    | match goal with
      | |- only _ (let '(_, _) := ?v in _) => destruct v
      | |- only _ (if ?b then _ else _) => destruct b
      | |- only _ (match ?x with _ => _ end) => destruct x
      end ].

Ltac only_auto := repeat only_step.

Lemma path_only : forall d, only path_error (Path._path_to_linestring d).
Proof.
  intros d. destruct (Path._path_to_linestring d) as [a|e|] eqn:E; simpl; auto.
  apply PathFacts.path_exceptions in E.
  destruct E as [E|[E|E]]; subst e; simpl; auto.
Qed.

Lemma attr_float_only : forall allowed el key, only allowed (attr_float el key).
Proof. intros. unfold attr_float. only_auto. Qed.

Lemma floats_only : forall allowed l, only allowed (Svg.floats l).
Proof.
  intros allowed l. induction l as [|s l IH]; simpl; [exact I|].
  destruct (Py.float s); [|exact I]. apply only_bind; [exact IH | intros; exact I].
Qed.

Lemma parse_points_only : forall allowed s, only allowed (Svg._parse_points s).
Proof.
  intros. unfold Svg._parse_points.
  apply only_bind; [apply floats_only | intros; exact I].
Qed.

Section Stages.
Variable G : GeomKernel.

Lemma element_geometry_only : forall el, only path_error (element_geometry G el).
Proof.
  intros el. unfold element_geometry.
  repeat match goal with
  | |- only _ (if ?b then _ else _) => destruct b
  | |- only _ (bind (Path._path_to_linestring _) _) =>
      apply only_bind; [apply path_only | intros]
  | |- only _ (bind (attr_float _ _) _) =>
      apply only_bind; [apply attr_float_only | intros]
  | |- only _ (bind (Svg._parse_points _) _) =>
      apply only_bind; [apply parse_points_only | intros]
  | |- only _ (bind (lift _) _) => apply only_bind; [apply only_lift | intros]
  | |- only _ (Ok _) => exact I
  end.
Qed.

Lemma collect_only : forall els, only path_error (collect_geometry G els).
Proof.
  induction els as [|el els IH]; simpl; [exact I|].
  apply only_bind; [apply element_geometry_only | intros].
  apply only_bind; [exact IH | intros; exact I].
Qed.

Lemma extract_only : forall svg, only geometry_error (_extract_geometry G svg).
Proof.
  intros [root|]; simpl; [|reflexivity].
  destruct (Svg._has_raster_images root); [reflexivity|].
  apply only_bind.
  - apply only_weaken with (a1 := path_error); [|apply collect_only].
    intros []; simpl; congruence.
  - intros [|g gs]; simpl; reflexivity.
Qed.

Lemma unify_only : forall raw min_line,
  only geometry_error (unify_to_polygons G raw min_line).
Proof.
  induction raw as [|g raw IH]; intros min_line; simpl; [exact I|].
  apply only_bind; [|intros; apply only_bind; [apply IH | intros; exact I]].
  destruct g; unfold buffer0; only_auto.
Qed.

Lemma clean_only : forall geom ws, only geometry_error (_clean_geometry G geom ws).
Proof.
  intros geom ws. unfold _clean_geometry. only_auto.
Qed.

Lemma normalize_only : forall geom t ws,
  only geometry_error (_normalize_to_size geom t ws).
Proof.
  intros. unfold _normalize_to_size.
  repeat match goal with
  | |- only _ (match ?x with _ => _ end) => destruct x
  | |- only _ (let '(_, _) := ?v in _) => destruct v
  end; simpl; auto.
Qed.

Lemma buffer_only : forall geom m ws,
  only geometry_error (_buffer_to_min_line G geom m ws).
Proof.
  intros. unfold _buffer_to_min_line, buffer0. only_auto.
Qed.

Lemma relief_regions_only : forall svg size min_line,
  only geometry_error (relief_regions G svg size min_line).
Proof.
  intros. unfold relief_regions.
  apply only_bind; [apply extract_only | intros [root raw]].
  apply only_bind; [apply unify_only | intros converted].
  apply only_bind; [apply only_lift | intros geom].
  apply only_bind; [apply clean_only | intros [ps ws]].
  apply only_bind; [apply normalize_only | intros [g1 ws1]].
  apply only_bind; [apply buffer_only | intros [g2 ws2]].
  apply clean_only.
Qed.

End Stages.

Section Meshes.
Variable M : MeshKernel.

Lemma extrude_only : forall ps base relief,
  only mesh_error (extrude_regions M ps base relief).
Proof.
  induction ps as [|p ps IH]; intros base relief; simpl; [exact I|].
  apply only_bind; [|intros; apply only_bind; [apply IH | intros; exact I]].
  destruct (skipped p); [exact I|].
  apply only_try. intros; reflexivity.
Qed.

Lemma relief_volume_only : forall ps base relief,
  only mesh_error (relief_volume M ps base relief).
Proof.
  intros. unfold relief_volume.
  apply only_bind; [apply extrude_only | intros [|m ms]; simpl; reflexivity].
Qed.

End Meshes.

End Origins.

(* ------------------------------------------------------------------ *)
(** ** The claims *)

Import Geom GeomFacts HoleFacts Raises Origins.


(** C1.  A path with a curve command is not rejected: the tokenizer keeps
    only the supported command letters and the numbers, so the curve's
    operands are read as line-to coordinates and a point sequence comes
    back; no command string at all makes the interpreter raise the
    unsupported-command error. *)
Theorem curve_commands_are_dropped :
  Path._path_to_linestring "M 0 0 C 10 0 10 10 0 10"
    = Ok (Some [(0, 0); (10, 0); (10, 10); (0, 10)])
  /\ forall d,
       Path._path_to_linestring d <> Raise (ConvertError UnsupportedPathCommand).
Proof.
  split; [vm_compute; reflexivity|].
  intros d E. apply PathFacts.path_exceptions in E.
  destruct E as [E|[E|E]]; discriminate.
Qed.

(** C4.  Hole removal with the fixed threshold [0.35 * 0.35]: the exterior
    ring is unchanged, every kept hole is a hole of the input with area at
    least the threshold, and every hole of the input that is not kept has
    area strictly below it. *)
Theorem small_holes_removed_by_threshold : forall poly ws,
  let p2 := fst (_remove_small_holes poly min_hole_area ws) in
  exterior p2 = exterior poly
  /\ (forall r, In r (interiors p2) ->
        In r (interiors poly) /\ (min_hole_area <= ring_area r)%Q)
  /\ (forall r, In r (interiors poly) -> ~ In r (interiors p2) ->
        (ring_area r < min_hole_area)%Q).
Proof.
  intros poly ws p2. unfold p2. rewrite remove_small_holes_filter. simpl.
  split; [reflexivity|]. split.
  - intros r H. apply filter_In in H. destruct H as [Hin H].
    split; [exact Hin | apply Qle_bool_iff; exact H].
  - intros r Hin Hout.
    destruct (big_enough min_hole_area r) eqn:E.
    + exfalso. apply Hout. apply filter_In. auto.
    + apply Qle_bool_gt. exact E.
Qed.

Lemma small_holes_removed_by_threshold_witness :
  let p2 := fst (_remove_small_holes Examples.plate_two_holes min_hole_area []) in
  exterior p2 = exterior Examples.plate_two_holes
  /\ (forall r, In r (interiors p2) ->
        In r (interiors Examples.plate_two_holes) /\ (min_hole_area <= ring_area r)%Q)
  /\ (forall r, In r (interiors Examples.plate_two_holes) -> ~ In r (interiors p2) ->
        (ring_area r < min_hole_area)%Q).
Proof. exact (small_holes_removed_by_threshold Examples.plate_two_holes []). Defined.

Local Open Scope Q_scope.

(** C5, amended.  For a geometry whose bounding box has positive width and
    height and a positive target size, [_normalize_to_size] returns the
    geometry scaled by [target / max(width, height)] about the origin and
    then translated so that the centre of its bounding box is the origin;
    its box is [factor * width] by [factor * height].  It appends the
    warning exactly when the factor is below 0.5.  With a zero width or
    height it fails with DegenerateBounds; with positive width and height
    and a target that is not positive it fails with the scale-factor
    error. *)
Theorem normalize_to_size_spec :
  forall geom target ws minx miny maxx maxy,
    bounds geom = Some (minx, miny, maxx, maxy) ->
    let w := maxx - minx in
    let h := maxy - miny in
    let f := target / py_max w h in
    ((w <= 0 \/ h <= 0) ->
       _normalize_to_size geom target ws = Raise (ConvertError DegenerateBounds))
    /\ (0 < w -> 0 < h -> target <= 0 ->
         _normalize_to_size geom target ws = Raise (ConvertError BadScaleFactor))
    /\ (0 < w -> 0 < h -> 0 < target ->
         exists cx cy a b c d,
           _normalize_to_size geom target ws
             = Ok (translate (shp_scale geom f f (0, 0)) (- cx) (- cy),
                   if Qltb f (1 # 2) then ws ++ [ScaledDownWarning] else ws)
           /\ bounds (translate (shp_scale geom f f (0, 0)) (- cx) (- cy))
               = Some (a, b, c, d)
           /\ (a + c) / 2 == 0 /\ (b + d) / 2 == 0
           /\ c - a == f * w /\ d - b == f * h)%Q.
Proof.
  intros geom target ws minx miny maxx maxy Hb w h f.
  unfold _normalize_to_size. rewrite Hb. fold w h.
  assert (Hm : 0 < w -> 0 < h -> 0 < py_max w h).
  { intros Hw Hh. destruct (py_max_spec w h) as [[_ E]|[_ E]]; rewrite E; assumption. }
  repeat split.
  - intros [H|H]; apply Qle_bool_iff in H; rewrite H; simpl;
      [reflexivity | rewrite orb_true_r; reflexivity].
  - intros Hw Hh Ht.
    assert (E1 : Qle_bool w 0 = false) by (apply Qle_bool_gt; exact Hw).
    assert (E2 : Qle_bool h 0 = false) by (apply Qle_bool_gt; exact Hh).
    rewrite E1, E2. simpl. fold f.
    assert (Hf : f <= 0).
    { unfold f, Qdiv. specialize (Hm Hw Hh).
      assert (0 < / py_max w h) by (apply Qinv_lt_0_compat; exact Hm). nra. }
    apply Qle_bool_iff in Hf. rewrite Hf. reflexivity.
  - intros Hw Hh Ht.
    assert (E1 : Qle_bool w 0 = false) by (apply Qle_bool_gt; exact Hw).
    assert (E2 : Qle_bool h 0 = false) by (apply Qle_bool_gt; exact Hh).
    rewrite E1, E2. simpl. fold f.
    assert (Hf : 0 < f).
    { unfold f, Qdiv. specialize (Hm Hw Hh).
      assert (0 < / py_max w h) by (apply Qinv_lt_0_compat; exact Hm). nra. }
    assert (E3 : Qle_bool f 0 = false) by (apply Qle_bool_gt; exact Hf).
    rewrite E3.
    destruct (bounds_scale f geom _ _ _ _ Hf Hb)
      as [a2 [b2 [c2 [d2 [Es [Ha [Hb2 [Hc Hd]]]]]]]].
    rewrite Es.
    destruct (bounds_translate (- ((a2 + c2) / 2)) (- ((b2 + d2) / 2)) _ _ _ _ _ Es)
      as [a [b [c [d [Et [Ha' [Hb' [Hc' Hd']]]]]]]].
    exists ((a2 + c2) / 2), ((b2 + d2) / 2), a, b, c, d.
    split; [reflexivity|]. split; [exact Et|].
    unfold w, h.
    repeat split; rewrite ?Ha', ?Hb', ?Hc', ?Hd', ?Ha, ?Hb2, ?Hc, ?Hd; field.
Qed.


Lemma normalize_to_size_spec_witness :
  bounds (GPolygon (mkPolygon (Examples.square 0 0 10 10) [])) = Some (0, 0, 10, 10)
  /\ exists g ws,
       _normalize_to_size (GPolygon (mkPolygon (Examples.square 0 0 10 10) [])) 30 []
         = Ok (g, ws).
Proof.
  split; [reflexivity|].
  destruct (normalize_to_size_spec
              (GPolygon (mkPolygon (Examples.square 0 0 10 10) [])) 30 []
              0 0 10 10 eq_refl) as [_ [_ H]].
  destruct H as [cx [cy [a [b [c [d [E _]]]]]]]; [reflexivity | reflexivity | reflexivity |].
  eexists. eexists. exact E.
Defined.

(** C5, as stated, fails for a target of zero: the square has positive
    width and height, and the call raises the scale-factor error instead
    of returning a geometry. *)
Lemma zero_target_is_refused :
  bounds (GPolygon (mkPolygon (Examples.square 0 0 10 10) [])) = Some (0, 0, 10, 10)
  /\ _normalize_to_size (GPolygon (mkPolygon (Examples.square 0 0 10 10) [])) 0 []
     = Raise (ConvertError BadScaleFactor).
Proof. split; reflexivity. Qed.





Lemma half_width_floor : forall m,
  (1 # 100) <= half_width m /\ m / 2 <= half_width m
  /\ (half_width m == m / 2 \/ half_width m == 1 # 100).
Proof.
  intros m. unfold half_width.
  destruct (py_max_spec (m / 2) (1 # 100)) as [[H E]|[H E]]; rewrite E.
  - split; [lra|]. split; [lra|]. right. reflexivity.
  - split; [lra|]. split; [lra|]. left. reflexivity.
Qed.

(** C7.  The half-width is [max(min_line/2, 0.01)].  An open curve is
    buffered by exactly that distance with flat caps and mitred joins, a
    polygon or multipolygon by zero; the union of the result is buffered
    by zero once more (kept as it is if that raises).  An empty outcome is
    the EmptyGeometry failure, the only conversion error of this stage; a
    returned geometry is never empty, and the warning is appended exactly
    when the half-width exceeds 1.  The first loop of the pipeline buffers
    each open curve the same way. *)
Theorem min_width_enforcer_spec : forall G min_line ws,
  let half := half_width min_line in
  let finish u :=
    let u2 := match buffer G u 0 CapRound JoinRound with
              | Some v => v
              | None => u
              end in
    if is_empty u2 then Raise (ConvertError EmptyAfterBuffer)
    else Ok (u2, if Qltb 1 half then ws ++ [LargeMinLineWarning] else ws) in
  ((1 # 100) <= half /\ min_line / 2 <= half
   /\ (half == min_line / 2 \/ half == 1 # 100))
  /\ (forall pts b u,
        buffer G (GLineString pts) half CapFlat JoinMitre = Some b ->
        unary_union G [b] = Some u ->
        _buffer_to_min_line G (GLineString pts) min_line ws = finish u)
  /\ (forall g b u,
        (exists p, g = GPolygon p) \/ (exists ps, g = GMultiPolygon ps) ->
        buffer G g 0 CapRound JoinRound = Some b ->
        unary_union G [b] = Some u ->
        _buffer_to_min_line G g min_line ws = finish u)
  /\ (forall geom g' ws',
        _buffer_to_min_line G geom min_line ws = Ok (g', ws') ->
        is_empty g' = false
        /\ ((1 < half /\ ws' = ws ++ [LargeMinLineWarning])
            \/ (half <= 1 /\ ws' = ws)))
  /\ (forall geom e,
        _buffer_to_min_line G geom min_line ws = Raise (ConvertError e) ->
        e = EmptyAfterBuffer)
  /\ (forall pts rest,
        unify_to_polygons G (GLineString pts :: rest) min_line
        = bind (lift (buffer G (GLineString pts) half CapFlat JoinMitre)) (fun b =>
          bind (unify_to_polygons G rest min_line) (fun more => Ok (b :: more)))).
Proof.
  intros G min_line ws half finish.
  split; [apply half_width_floor|].
  split; [|split; [|split; [|split]]].
  - intros pts b u Hb Hu. unfold _buffer_to_min_line. fold half.
    rewrite Hb. simpl. rewrite Hu. simpl. unfold buffer0, finish.
    destruct (buffer G u 0 CapRound JoinRound); reflexivity.
  - intros g b u Hg Hb Hu. unfold _buffer_to_min_line. fold half.
    destruct Hg as [[p Hg]|[ps Hg]]; subst g; unfold buffer0;
      rewrite Hb; simpl; rewrite Hu; simpl; unfold finish;
      destruct (buffer G u 0 CapRound JoinRound); reflexivity.
  - intros geom g' ws'. unfold _buffer_to_min_line. fold half.
    match goal with
    | |- bind ?m _ = _ -> _ => destruct m as [polys| |]; simpl; try discriminate
    end.
    match goal with
    | |- bind ?m _ = _ -> _ => destruct m as [u| |]; simpl; try discriminate
    end.
    match goal with
    | |- bind ?m _ = _ -> _ => destruct m as [u2| |]; simpl; try discriminate
    end.
    destruct (is_empty u2) eqn:Ee; [discriminate|].
    intros E. inversion E; subst. split; [exact Ee|].
    destruct (Qltb 1 half) eqn:Eh.
    + left. split; [apply Qltb_lt; exact Eh | reflexivity].
    + right. split; [apply Qltb_ge; exact Eh | reflexivity].
  - intros geom e. unfold _buffer_to_min_line, buffer0. fold half.
    repeat match goal with
    | |- bind (match ?g with _ => _ end) _ = _ -> _ => destruct g
    | |- context [lift ?o] => destruct o; simpl
    | |- context [match ?l with [] => _ | _ :: _ => _ end] => destruct l; simpl
    | |- context [if is_empty ?u then _ else _] => destruct (is_empty u)
    end; try discriminate; intros E; inversion E; reflexivity.
  - intros pts rest. simpl. fold half.
    destruct (buffer G (GLineString pts) half CapFlat JoinMitre); simpl;
      [|reflexivity].
    destruct (unify_to_polygons G rest min_line); reflexivity.
Qed.

Lemma min_width_enforcer_spec_witness :
  exists g,
    _buffer_to_min_line Boxes.geom (GLineString [(0, 0); (5, 0); (10, 0)]) (14 # 10) []
      = Ok (g, []).
Proof.
  destruct (min_width_enforcer_spec Boxes.geom (14 # 10) []) as [_ [H _]].
  eexists.
  rewrite (H [(0, 0); (5, 0); (10, 0)]
             (GPolygon (mkPolygon (Boxes.box_ring (0, -14 # 20, 10, 14 # 20)) []))
             (GPolygon (mkPolygon (Boxes.box_ring (0, -14 # 20, 10, 14 # 20)) [])));
    vm_compute; reflexivity.
Defined.

Module MeshFacts.
Section Loop.
Variable M : MeshKernel.
Variables base relief : Q.

Lemma bind_ret : forall A (m : res A), bind m (fun a => Ok a) = m.
Proof. intros A [a|e|]; reflexivity. Qed.

Lemma extrude_skips : forall ps,
  extrude_regions M ps base relief
  = extrude_regions M (filter printable ps) base relief.
Proof.
  induction ps as [|p ps IH]; simpl; [reflexivity|].
  unfold printable at 1. destruct (skipped p) eqn:E; simpl.
  - rewrite IH. apply bind_ret.
  - rewrite E, IH. reflexivity.
Qed.

Lemma extrude_raises : forall ps e,
  extrude_regions M ps base relief = Raise e -> e = ConvertError MeshBuildFailure.
Proof.
  induction ps as [|p ps IH]; intros e; simpl; [discriminate|].
  destruct (skipped p); simpl.
  - destruct (extrude_regions M ps base relief) eqn:E; simpl; try discriminate.
    intros H; inversion H; subst. apply IH. reflexivity.
  - destruct (extrude_polygon M p relief); simpl.
    + destruct (extrude_regions M ps base relief) eqn:E; simpl; try discriminate.
      intros H; inversion H; subst. apply IH. reflexivity.
    + intros H; inversion H; reflexivity.
Qed.

Lemma extrude_returns : forall ps, extrude_regions M ps base relief <> Diverge.
Proof.
  induction ps as [|p ps IH]; simpl; [discriminate|].
  destruct (skipped p); simpl.
  - destruct (extrude_regions M ps base relief); simpl; congruence.
  - destruct (extrude_polygon M p relief); simpl; [|discriminate].
    destruct (extrude_regions M ps base relief); simpl; congruence.
Qed.

Lemma extrude_failure : forall ps p,
  In p ps -> skipped p = false -> extrude_polygon M p relief = None ->
  extrude_regions M ps base relief = Raise (ConvertError MeshBuildFailure).
Proof.
  intros ps p Hin Hs Hx.
  destruct (extrude_regions M ps base relief) as [ms|e|] eqn:E.
  - exfalso. revert ms E. induction ps as [|q ps IH]; [destruct Hin|].
    intros ms. simpl.
    destruct Hin as [Hq|Hin].
    + subst q. rewrite Hs, Hx. discriminate.
    + destruct (skipped q); simpl.
      * destruct (extrude_regions M ps base relief) as [ms'| |]; try discriminate.
        intros _. apply (IH Hin ms'). reflexivity.
      * destruct (extrude_polygon M q relief); simpl; try discriminate.
        destruct (extrude_regions M ps base relief) as [ms'| |]; try discriminate.
        intros _. apply (IH Hin ms'). reflexivity.
  - apply extrude_raises in E. subst e. reflexivity.
  - exfalso. exact (extrude_returns ps E).
Qed.

Lemma extrude_success : forall ps,
  (forall p, In p ps -> skipped p = false -> extrude_polygon M p relief <> None) ->
  exists ms, extrude_regions M ps base relief = Ok ms
             /\ length ms = length (filter printable ps).
Proof.
  induction ps as [|p ps IH]; intros H; simpl; [exists []; auto|].
  destruct IH as [ms [E L]]; [intros q Hq; apply H; right; exact Hq|].
  unfold printable at 1. destruct (skipped p) eqn:Es; simpl.
  - rewrite E. simpl. exists ms. auto.
  - destruct (extrude_polygon M p relief) as [m|] eqn:Ex;
      [|exfalso; apply (H p (or_introl eq_refl) Es Ex)].
    simpl. rewrite E. simpl. eexists. split; [reflexivity|]. simpl. lia.
Qed.

End Loop.
End MeshFacts.

(** C9.  In the mesh-building loop a region that is empty or has an area
    of zero or less is passed over: the outcome is that of the remaining
    regions.  If the extrusion of a region that is not passed over raises,
    the outcome is MeshBuildFailure; if every region is passed over it is
    EmptyResult; otherwise a relief volume is built.  The pipeline ends
    with whatever failure this stage ends with. *)
Theorem mesh_building_outcomes : forall G M base relief ps,
  (forall p, skipped p = true <-> (polygon_is_empty p = true \/ area p <= 0))
  /\ relief_volume M ps base relief
     = relief_volume M (filter printable ps) base relief
  /\ ((exists p, In p ps /\ skipped p = false /\ extrude_polygon M p relief = None) ->
      relief_volume M ps base relief = Raise (ConvertError MeshBuildFailure))
  /\ ((forall p, In p ps -> skipped p = true) ->
      relief_volume M ps base relief = Raise (ConvertError EmptyResult))
  /\ ((forall p, In p ps -> skipped p = false -> extrude_polygon M p relief <> None) ->
      (exists p, In p ps /\ skipped p = false) ->
      exists m, relief_volume M ps base relief = Ok m)
  /\ (forall svg size min_line mode_arg ws e,
        relief_regions G svg size min_line = Ok (ps, ws) ->
        relief_volume M ps base relief = Raise e ->
        convert_svg_to_stl G M svg size base relief min_line mode_arg = Raise e).
Proof.
  intros G M base relief ps.
  split; [|split; [|split; [|split; [|split]]]].
  - intros p. unfold skipped. rewrite orb_true_iff, Qle_bool_iff. reflexivity.
  - unfold relief_volume. rewrite <- MeshFacts.extrude_skips. reflexivity.
  - intros [p [Hin [Hs Hx]]]. unfold relief_volume.
    rewrite (MeshFacts.extrude_failure M base relief ps p Hin Hs Hx). reflexivity.
  - intros H. unfold relief_volume. rewrite MeshFacts.extrude_skips.
    assert (E : filter printable ps = []).
    { induction ps as [|p ps IH]; simpl; [reflexivity|].
      unfold printable at 1. rewrite (H p (or_introl eq_refl)). simpl.
      apply IH. intros q Hq. apply H. right. exact Hq. }
    rewrite E. reflexivity.
  - intros H [p [Hin Hs]]. unfold relief_volume.
    destruct (MeshFacts.extrude_success M base relief ps H) as [ms [E L]].
    rewrite E. simpl.
    assert (Hp : In p (filter printable ps)).
    { apply filter_In. split; [exact Hin|]. unfold printable.
      rewrite Hs. reflexivity. }
    destruct ms as [|m ms]; [|eauto].
    destruct (filter printable ps); [destruct Hp | discriminate].
  - intros svg size min_line mode_arg ws e Hr Hv.
    unfold convert_svg_to_stl. rewrite Hr. simpl. rewrite Hv. reflexivity.
Qed.

Lemma mesh_building_outcomes_witness :
  relief_volume (Boxes.mesh false false)
    [mkPolygon [] []; mkPolygon (Examples.square 0 0 10 10) []] 7 (22 # 10)
  = Raise (ConvertError MeshBuildFailure).
Proof.
  destruct (mesh_building_outcomes Boxes.geom (Boxes.mesh false false) 7 (22 # 10)
              [mkPolygon [] []; mkPolygon (Examples.square 0 0 10 10) []])
    as [_ [_ [H _]]].
  apply H. exists (mkPolygon (Examples.square 0 0 10 10) []).
  split; [right; left; reflexivity|]. split; reflexivity.
Defined.

Lemma combine_never_invalid_mode : forall M md base relief height ws,
  only (fun _ => false) (combine M md base relief height ws).
Proof.
  intros M md base relief height ws. unfold combine.
  destruct (String.eqb md "raised").
  - destruct (scad_exists M); simpl; [|exact I].
    destruct (boolean_union M [base; relief]); exact I.
  - destruct (scad_exists M); simpl; [|exact I].
    destruct (boolean_difference M _); exact I.
Qed.

(** C10.  The mode is taken in lower case, with ['raised'] for an absent
    or empty one, and the pipeline's outcome depends on the argument
    through that form only.  When the form is neither ['raised'] nor
    ['engraved'], the pipeline fails with the mode error if the 2D stages
    and the relief extrusion succeed, and with their failure, which is
    never the mode error, if they fail.  A mode error is only ever
    reported for such a mode and after those stages have succeeded. *)
Theorem mode_validation_spec :
  forall G M svg size base relief min_line mode_arg,
    let run := convert_svg_to_stl G M svg size base relief min_line in
    let prior :=
      bind (relief_regions G svg size min_line) (fun '(ps, _) =>
        relief_volume M ps base relief) in
    let mode := normalize_mode mode_arg in
    (normalize_mode None = "raised"%string
     /\ normalize_mode (Some ""%string) = "raised"%string
     /\ forall c s, normalize_mode (Some (String c s))
                    = string_of_list_ascii (Py.lower (Py.chars (String c s))))
    /\ (forall other, normalize_mode other = mode -> run other = run mode_arg)
    /\ (mode <> "raised"%string -> mode <> "engraved"%string ->
        (forall rm, prior = Ok rm -> run mode_arg = Raise (ConvertError InvalidMode))
        /\ (forall e, prior = Raise e ->
              run mode_arg = Raise e /\ e <> ConvertError InvalidMode))
    /\ (run mode_arg = Raise (ConvertError InvalidMode) ->
        mode <> "raised"%string /\ mode <> "engraved"%string
        /\ exists rm, prior = Ok rm).
Proof.
  intros G M svg size base relief min_line mode_arg run prior mode.
  split; [repeat split|]. split; [|split].
  - intros other H. unfold run, convert_svg_to_stl. fold mode. rewrite H.
    reflexivity.
  - intros H1 H2.
    assert (Hm : negb (String.eqb mode "raised" || String.eqb mode "engraved") = true).
    { apply String.eqb_neq in H1. apply String.eqb_neq in H2. rewrite H1, H2.
      reflexivity. }
    unfold run, prior, convert_svg_to_stl. fold mode. rewrite Hm.
    pose proof (relief_regions_only G svg size min_line) as Hr.
    destruct (relief_regions G svg size min_line) as [[ps ws]|e|]; simpl.
    + pose proof (relief_volume_only M ps base relief) as Hv.
      destruct (relief_volume M ps base relief) as [rm|e|]; simpl.
      * split; [reflexivity | discriminate].
      * split; [discriminate|]. intros e' E. inversion E; subst e'.
        split; [reflexivity|]. intros E'. subst e. discriminate Hv.
      * split; discriminate.
    + split; [discriminate|]. intros e' E. inversion E; subst e'.
      split; [reflexivity|]. intros E'. subst e. discriminate Hr.
    + split; discriminate.
  - unfold run, prior, convert_svg_to_stl. fold mode.
    pose proof (relief_regions_only G svg size min_line) as Hr.
    destruct (relief_regions G svg size min_line) as [[ps ws]|e|]; simpl;
      [| intros E; inversion E; subst e; discriminate Hr | discriminate].
    pose proof (relief_volume_only M ps base relief) as Hv.
    destruct (relief_volume M ps base relief) as [rm|e|]; simpl;
      [| intros E; inversion E; subst e; discriminate Hv | discriminate].
    destruct (String.eqb mode "raised") eqn:E1;
      destruct (String.eqb mode "engraved") eqn:E2; simpl.
    4: { intros _. apply String.eqb_neq in E1. apply String.eqb_neq in E2.
         split; [exact E1|]. split; [exact E2|]. exists rm. reflexivity. }
    all: pose proof (combine_never_invalid_mode M mode
                       (base_slab M size base) rm relief ws) as Hc;
      destruct (combine M mode (base_slab M size base) rm relief ws)
        as [[stamp ws2]|e|]; simpl;
      [ destruct (mesh_is_empty M stamp); [discriminate|];
        destruct (mesh_bounds M (process M stamp)) as [[[? ?] ?] [[? ?] ?]];
        discriminate
      | intros E; inversion E; subst e; discriminate Hc
      | discriminate ].
Qed.

Lemma mode_validation_spec_witness :
  convert_svg_to_stl Boxes.geom (Boxes.mesh false true)
    (Some Examples.square_drawing) 30 7 (22 # 10) (14 # 10) (Some "sunken"%string)
  = Raise (ConvertError InvalidMode).
Proof.
  destruct (mode_validation_spec Boxes.geom (Boxes.mesh false true)
              (Some Examples.square_drawing) 30 7 (22 # 10) (14 # 10)
              (Some "sunken"%string)) as [_ [_ [H _]]].
  destruct H as [H _]; [vm_compute; discriminate | vm_compute; discriminate |].
  eapply H. vm_compute. reflexivity.
Defined.

Module RasterFacts.





End RasterFacts.




Lemma allowed_size_iff : forall z,
  existsb (Z.eqb z) Backend.ALLOWED_SIZES = true <-> In z Backend.ALLOWED_SIZES.
Proof.
  intros z. rewrite existsb_exists. split.
  - intros [a [Hin E]]. apply Z.eqb_eq in E. subst a. exact Hin.
  - intros H. exists z. split; [exact H | apply Z.eqb_refl].
Qed.

Lemma between_iff : forall lo v hi,
  Backend.between lo v hi = true <-> (lo <= v /\ v <= hi).
Proof.
  intros. unfold Backend.between. rewrite andb_true_iff, !Qle_bool_iff. tauto.
Qed.

(** C2, amended.  The bounds are checked by the request handler and by
    nothing else: [generate] answers a request with a size outside
    {25, 30, 40} or a base height, relief height or minimum line width
    outside its interval with a client error, whatever the pipeline would
    do with it; [convert_svg_to_stl] called directly checks none of them
    and converts the square with size 50, base 1, relief 10 and minimum
    line width 0.1. *)
Theorem parameter_bounds_are_the_handlers :
  (forall (R : Type)
          (convert convert' :
             option Svg.Element -> Q -> Q -> Q -> Q -> option string -> res R)
          (r : Backend.Request),
     ~ in_bounds (Backend.q_size_mm r) (Backend.q_base_mm r)
         (Backend.q_relief_mm r) (Backend.q_min_line_mm r) ->
     Backend.generate convert r = Backend.generate convert' r
     /\ (Backend.generate convert r = Backend.ValidationError
         \/ Backend.generate convert r
            = Backend.HttpError 400 "Invalid size. Allowed sizes: 25, 30, 40 mm."))
  /\ exists rep m,
       convert_svg_to_stl Boxes.geom (Boxes.mesh false true)
         (Some Examples.square_drawing) 50 1 10 (1 # 10) (Some "raised"%string)
       = Ok (rep, m).
Proof.
  split.
  - intros R convert convert' r Hout. unfold Backend.generate.
    destruct (Backend.query_ok r) eqn:Eq; cbn [negb]; [|auto].
    destruct (existsb (Z.eqb (Backend.q_size_mm r)) Backend.ALLOWED_SIZES) eqn:Es;
      cbn [negb]; [|auto].
    exfalso. apply Hout. unfold Backend.query_ok in Eq.
    repeat (apply andb_true_iff in Eq; destruct Eq as [Eq ?]).
    repeat match goal with
    | H : Backend.between _ _ _ = true |- _ => apply between_iff in H
    end.
    apply allowed_size_iff in Es. unfold in_bounds. auto.
  - do 2 eexists. vm_compute. reflexivity.
Qed.

Lemma parameter_bounds_are_the_handlers_witness :
  Backend.generate
    (convert_svg_to_stl Boxes.geom (Boxes.mesh false true))
    Examples.oversized_request
  = Backend.HttpError 400 "Invalid size. Allowed sizes: 25, 30, 40 mm.".
Proof.
  destruct parameter_bounds_are_the_handlers as [H _].
  destruct (H _ (convert_svg_to_stl Boxes.geom (Boxes.mesh false true))
              (fun _ _ _ _ _ _ => Diverge) Examples.oversized_request)
    as [E _].
  - unfold in_bounds. simpl. intros [[Hs|[Hs|[Hs|[]]]] _]; discriminate.
  - rewrite E. reflexivity.
Defined.

(** C2, as stated, fails: called directly with every parameter out of its
    range, the pipeline returns a report and a mesh. *)
Lemma direct_call_out_of_range :
  ~ In 50%Z Backend.ALLOWED_SIZES
  /\ ~ (2 <= 1) /\ ~ (10 <= 6) /\ ~ ((4 # 10) <= (1 # 10))
  /\ exists rep m,
       convert_svg_to_stl Boxes.geom (Boxes.mesh false true)
         (Some Examples.square_drawing) 50 1 10 (1 # 10) (Some "raised"%string)
       = Ok (rep, m)
       /\ size_mm rep = 50 /\ base_mm rep = 1 /\ relief_mm rep = 10.
Proof.
  split; [simpl; intros [H|[H|[H|[]]]]; discriminate|].
  split; [intros H; vm_compute in H; apply H; reflexivity|].
  split; [intros H; vm_compute in H; apply H; reflexivity|].
  split; [intros H; vm_compute in H; apply H; reflexivity|].
  do 2 eexists. split; [vm_compute; reflexivity|]. repeat split.
Qed.




(* ------------------------------------------------------------------ *)
(** ** Further properties of the pipeline *)

Module PathTermination.
Import Path PathFacts.

Section Loop.
Variable tokens : list token.

Lemma read_num_ok : forall st v st1,
  read_num tokens st = Ok (v, st1) ->
  st1 = mkState (S (i st)) (cmd st) (x st) (y st) (start st) (pts st)
  /\ exists s, nth_error tokens (i st) = Some (TNum s).
Proof.
  intros st v st1. unfold read_num.
  destruct (nth_error tokens (i st)) as [[c|s]|]; try discriminate.
  destruct (Py.float s); try discriminate.
  intros E. inversion E; subst. split; [reflexivity | eauto].
Qed.

(** What a successful [dispatch] leaves: the cursor moved over numbers
    only, and the command is kept or replaced by a line-to. *)
Lemma dispatch_ok : forall c st st',
  dispatch tokens c st = Ok st' ->
  (forall j, (i st <= j)%nat -> (j < i st')%nat ->
     exists s, nth_error tokens j = Some (TNum s))
  /\ (cmd st' = cmd st \/ cmd st' = Some "l"%char \/ cmd st' = Some "L"%char).
Proof.
  intros c st st'. unfold dispatch.
  repeat match goal with
  | |- context [if one_of c ?a ?b then _ else _] => destruct (one_of c a b)
  end; try discriminate.
  - destruct (read_num tokens st) as [[dx st1]| |] eqn:E1; simpl; try discriminate.
    destruct (read_num tokens st1) as [[dy st2]| |] eqn:E2; simpl; try discriminate.
    apply read_num_ok in E1. destruct E1 as [E1 [s1 T1]].
    apply read_num_ok in E2. destruct E2 as [E2 [s2 T2]].
    subst st1 st2. simpl in *.
    destruct (Ascii.eqb c "m"); intros E; inversion E; subst; simpl;
      (split; [|auto]); intros j H1 H2;
      (assert (Hj : j = i st \/ j = S (i st)) by lia);
      destruct Hj; subst j; eauto.
  - destruct (read_num tokens st) as [[dx st1]| |] eqn:E1; simpl; try discriminate.
    destruct (read_num tokens st1) as [[dy st2]| |] eqn:E2; simpl; try discriminate.
    apply read_num_ok in E1. destruct E1 as [E1 [s1 T1]].
    apply read_num_ok in E2. destruct E2 as [E2 [s2 T2]].
    subst st1 st2. simpl in *.
    destruct (Ascii.eqb c "l"); intros E; inversion E; subst; simpl;
      (split; [|auto]); intros j H1 H2;
      (assert (Hj : j = i st \/ j = S (i st)) by lia);
      destruct Hj; subst j; eauto.
  - destruct (read_num tokens st) as [[dx st1]| |] eqn:E1; simpl; try discriminate.
    apply read_num_ok in E1. destruct E1 as [E1 [s1 T1]]. subst st1. simpl.
    intros E; inversion E; subst; simpl. split; [|auto].
    intros j H1 H2. assert (j = i st) by lia. subst j. eauto.
  - destruct (read_num tokens st) as [[dy st1]| |] eqn:E1; simpl; try discriminate.
    apply read_num_ok in E1. destruct E1 as [E1 [s1 T1]]. subst st1. simpl.
    intros E; inversion E; subst; simpl. split; [|auto].
    intros j H1 H2. assert (j = i st) by lia. subst j. eauto.
  - intros E; inversion E; subst.
    destruct (append_start_same st) as [Ei Ec]. rewrite Ei, Ec.
    split; [intros j H1 H2; lia | auto].
Qed.

Lemma step_span : forall st st' j,
  step tokens st = Ok st' -> (i st < j)%nat -> (j < i st')%nat ->
  exists s, nth_error tokens j = Some (TNum s).
Proof.
  intros st st' j. unfold step.
  destruct (nth_error tokens (i st)) as [[c|s]|] eqn:E.
  - destruct (one_of c "Z" "z").
    + intros H; inversion H; subst.
      rewrite (proj1 (append_start_same _)). simpl. lia.
    + intros H H1 H2. apply dispatch_ok in H. destruct H as [H _].
      apply H; simpl; lia.
  - destruct (cmd st) as [c|]; [|discriminate].
    intros H H1 H2. apply dispatch_ok in H. destruct H as [H _].
    apply H; lia.
  - intros H; inversion H; subst. lia.
Qed.

Lemma step_keeps_fresh : forall st st',
  close_is_fresh tokens st -> step tokens st = Ok st' -> close_is_fresh tokens st'.
Proof.
  intros st st' Hinv. unfold step.
  destruct (nth_error tokens (i st)) as [[c|s]|] eqn:E.
  - destruct (one_of c "Z" "z") eqn:Hz.
    + intros H; inversion H; subst. intros c' Hc' _.
      destruct (append_start_same
                  (mkState (S (i st)) (Some c) (x st) (y st) (start st) (pts st)))
        as [Ei Ec].
      rewrite Ec in Hc'. simpl in Hc'. inversion Hc'; subst c'.
      exists (i st). rewrite Ei. auto.
    + intros H. apply dispatch_ok in H. destruct H as [_ H]. simpl in H.
      intros c' Hc' Hz'. rewrite Hc' in H.
      destruct H as [H|[H|H]]; inversion H; subst c'; try discriminate.
      congruence.
  - destruct (cmd st) as [c|] eqn:Ec; [|discriminate].
    intros H. pose proof H as H'. apply dispatch_ok in H. destruct H as [_ H].
    intros c' Hc' Hz'. rewrite Hc', Ec in H.
    destruct H as [H|[H|H]]; inversion H; subst c'; try discriminate.
    rewrite (close_cmd tokens c Hz') in H'. inversion H'; subst st'.
    destruct (append_start_same st) as [Ei Ec']. rewrite Ei.
    apply Hinv; assumption.
  - intros H; inversion H; subst. exact Hinv.
Qed.

Lemma hang_has_a_cause : forall fuel st,
  close_is_fresh tokens st ->
  (length tokens - i st <= fuel)%nat ->
  run tokens fuel st = Diverge ->
  number_after_close tokens.
Proof.
  induction fuel as [|f IH]; intros st Hinv Hf Hd.
  - simpl in Hd. destruct (i st <? length tokens)%nat eqn:E; [|discriminate].
    apply Nat.ltb_lt in E. lia.
  - simpl in Hd. destruct (i st <? length tokens)%nat eqn:E; [|discriminate].
    apply Nat.ltb_lt in E.
    destruct (step tokens st) as [st'| |] eqn:Es; try discriminate.
    + destruct (step_progress tokens st st' E Es) as [[c [s [Hc [Hz Hn]]]]|Hp].
      * destruct (Hinv c Hc Hz) as [k [Ek Hk]].
        exists k, c, s. rewrite <- Ek. auto.
      * apply (IH st'); [eapply step_keeps_fresh; eauto | lia | exact Hd].
    + exfalso. exact (step_returns tokens st Es).
Qed.

Lemma never_past_the_close : forall k c s, 
  nth_error tokens k = Some (TCmd c) -> one_of c "Z" "z" = true ->
  nth_error tokens (S k) = Some (TNum s) ->
  forall fuel st r, (i st <= k)%nat -> run tokens fuel st <> Ok r.
Proof.
  intros k c s Hk Hz Hn.
  assert (Hlen : (k < length tokens)%nat)
    by (apply nth_error_Some; rewrite Hk; discriminate).
  induction fuel as [|f IH]; intros st r Hle; simpl.
  - assert (E : (i st <? length tokens)%nat = true) by (apply Nat.ltb_lt; lia).
    rewrite E. discriminate.
  - assert (E : (i st <? length tokens)%nat = true) by (apply Nat.ltb_lt; lia).
    rewrite E.
    destruct (step tokens st) as [st'| |] eqn:Es; try discriminate.
    destruct (Nat.eq_dec (i st) k) as [Ek|Ek].
    + assert (Hs : stuck tokens st').
      { unfold step in Es. rewrite Ek, Hk, Hz in Es. inversion Es; subst st'.
        exists c, s. unfold append_start. simpl.
        destruct (start st); simpl; auto. }
      rewrite (stuck_forever tokens f st' Hs). discriminate.
    + apply IH.
      destruct (le_lt_dec (i st') k) as [H|H]; [exact H|].
      destruct (step_span st st' k Es) as [s' Hs']; [lia | lia |].
      congruence.
Qed.

End Loop.

Lemma hang_pattern : forall d,
  _path_to_linestring d = Diverge -> number_after_close (tokenize d).
Proof.
  intros d H.
  pose proof (path_hang_is_real d H (length (tokenize d))) as Hd.
  apply (hang_has_a_cause (tokenize d) (length (tokenize d)) init).
  - intros c Hc. discriminate Hc.
  - simpl. lia.
  - exact Hd.
Qed.

End PathTermination.

(** X1.  If the path interpreter does not return, some close-path command
    of the path is directly followed by a number: every other path is
    interpreted in finitely many steps. *)
Theorem path_hang_needs_number_after_close : forall d,
  Path._path_to_linestring d = Diverge ->
  number_after_close (Path.tokenize d).
Proof.
  intros d H.
  pose proof (PathFacts.path_hang_is_real d H (length (Path.tokenize d))) as Hd.
  apply (PathTermination.hang_has_a_cause (Path.tokenize d)
           (length (Path.tokenize d)) Path.init).
  - intros c Hc. discriminate Hc.
  - simpl. lia.
  - exact Hd.
Qed.

Lemma path_hang_needs_number_after_close_witness :
  number_after_close (Path.tokenize "M 0 0 L 1 1 Z 5").
Proof.
  apply path_hang_needs_number_after_close. vm_compute. reflexivity.
Defined.

(** X2.  A path in which a close-path command is directly followed by a
    number never yields a result: the interpreter raises before it gets
    there, or it loops forever. *)
Theorem number_after_close_never_returns : forall d r,
  number_after_close (Path.tokenize d) ->
  Path._path_to_linestring d <> Ok r.
Proof.
  intros d r [k [c [s [Hk [Hz Hn]]]]]. unfold Path._path_to_linestring.
  destruct d as [|a d']; [destruct k; discriminate Hk|].
  destruct (Path.tokenize (String a d')) as [|t ts] eqn:Et;
    [destruct k; discriminate Hk|].
  rewrite <- Et in *.
  destruct (Path.run (Path.tokenize (String a d'))
              (length (Path.tokenize (String a d'))) Path.init) as [st| |] eqn:Er;
    simpl; try discriminate.
  exfalso.
  apply (PathTermination.never_past_the_close (Path.tokenize (String a d'))
           k c s Hk Hz Hn (length (Path.tokenize (String a d'))) Path.init st);
    [simpl; lia | exact Er].
Qed.

Lemma number_after_close_never_returns_witness :
  Path._path_to_linestring "M 0 0 L 1 1 Z 5" <> Ok None.
Proof.
  apply number_after_close_never_returns.
  exists 6%nat, "Z"%char, (Py.chars "5"). vm_compute. repeat split.
Defined.

Module PathErrors.
Import Path PathFacts.

Section Loop.
Variable tokens : list token.

Lemma dispatch_raises : forall c st e,
  dispatch tokens c st = Raise e ->
  e = IndexError \/ e = ValueError \/ e = ConvertError UnsupportedPathCommand.
Proof.
  intros c st e. unfold dispatch.
  repeat match goal with
  | |- context [if one_of c ?a ?b then _ else _] => destruct (one_of c a b)
  | |- context [read_num tokens ?s] =>
      destruct (read_num_cases tokens s) as [[? E]|[E|E]]; rewrite E; clear E;
      cbn [bind]
  | |- context [if Ascii.eqb ?a ?b then _ else _] => destruct (Ascii.eqb a b)
  end; intros H; inversion H; auto.
Qed.

Lemma step_keeps_command : forall st st',
  cmd st <> None -> step tokens st = Ok st' -> cmd st' <> None.
Proof.
  intros st st' Hc. unfold step.
  destruct (nth_error tokens (i st)) as [[c|s]|].
  - destruct (one_of c "Z" "z").
    + intros H; inversion H.
      rewrite (proj2 (append_start_same _)). discriminate.
    + intros H. apply PathTermination.dispatch_ok in H. destruct H as [_ H].
      simpl in H. destruct H as [H|[H|H]]; rewrite H; discriminate.
  - destruct (cmd st) as [c|] eqn:Ec; [|contradiction].
    intros H. apply PathTermination.dispatch_ok in H. destruct H as [_ H].
    rewrite Ec in H. destruct H as [H|[H|H]]; rewrite H; discriminate.
  - intros H; inversion H; subst. exact Hc.
Qed.

Lemma run_with_command : forall fuel st,
  cmd st <> None ->
  run tokens fuel st <> Raise (ConvertError PathNumbersBeforeCommand).
Proof.
  induction fuel as [|f IH]; intros st Hc; simpl.
  - destruct (i st <? length tokens)%nat; discriminate.
  - destruct (i st <? length tokens)%nat; [|discriminate].
    destruct (step tokens st) as [st'|e|] eqn:Es; [| |discriminate].
    + apply IH. exact (step_keeps_command st st' Hc Es).
    + intros H. inversion H; subst e. unfold step in Es.
      destruct (nth_error tokens (i st)) as [[c|s]|]; try discriminate.
      * destruct (one_of c "Z" "z"); [discriminate|].
        apply dispatch_raises in Es. destruct Es as [E|[E|E]]; discriminate.
      * destruct (cmd st) as [c|]; [|contradiction].
        apply dispatch_raises in Es. destruct Es as [E|[E|E]]; discriminate.
Qed.

End Loop.

Lemma run_from_command : forall c ts fuel,
  run (TCmd c :: ts) fuel init <> Raise (ConvertError PathNumbersBeforeCommand).
Proof.
  intros c ts [|f].
  - simpl. discriminate.
  - cbn [run]. change (i init <? length (TCmd c :: ts))%nat with true. cbn iota.
    destruct (step (TCmd c :: ts) init) as [st'|e|] eqn:Es; [| |discriminate].
    + apply run_with_command.
      unfold step in Es. cbn [init i nth_error] in Es.
      destruct (one_of c "Z" "z").
      * inversion Es. rewrite (proj2 (append_start_same _)). discriminate.
      * apply PathTermination.dispatch_ok in Es. destruct Es as [_ Es].
        simpl in Es. destruct Es as [E|[E|E]]; rewrite E; discriminate.
    + intros H. inversion H; subst e.
      unfold step in Es. cbn [init i nth_error] in Es.
      destruct (one_of c "Z" "z"); [discriminate|].
      apply dispatch_raises in Es. destruct Es as [E|[E|E]]; discriminate.
Qed.

End PathErrors.

(** X3.  The interpreter raises the numbers-before-command error exactly
    when the first token of the path is a number. *)
Theorem numbers_before_command_iff : forall d,
  Path._path_to_linestring d = Raise (ConvertError PathNumbersBeforeCommand)
  <-> exists n rest, Path.tokenize d = Path.TNum n :: rest.
Proof.
  intros d. unfold Path._path_to_linestring.
  destruct d as [|a d'].
  { split; [discriminate | intros [n [rest H]]; discriminate H]. }
  destruct (Path.tokenize (String a d')) as [|t ts] eqn:Et.
  { split; [discriminate | intros [n [rest H]]; discriminate H]. }
  destruct t as [c|n].
  - split; [|intros [n [rest H]]; discriminate H].
    intros H. exfalso.
    pose proof (PathErrors.run_from_command c ts (length (Path.TCmd c :: ts))) as Hr.
    destruct (Path.run (Path.TCmd c :: ts) (length (Path.TCmd c :: ts)) Path.init)
      as [st|e|]; cbn [bind] in H.
    + revert H. destruct (length (Path.pts st) <? 3)%nat; discriminate.
    + apply Hr. injection H as ->. reflexivity.
    + discriminate H.
  - split; [eauto|]. intros _. reflexivity.
Qed.

Lemma numbers_before_command_iff_witness :
  Path._path_to_linestring "10 20 L 30 40"
  = Raise (ConvertError PathNumbersBeforeCommand).
Proof.
  apply numbers_before_command_iff. eexists. eexists. vm_compute. reflexivity.
Defined.

Module TokenFacts.
Import Py Path.

Ltac by_cases_on_char s :=
  destruct s as [|[[] [] [] [] [] [] [] []] ?]; reflexivity.

Lemma minus_match : forall (T : Type) (f : list ascii -> T) (d : T) s,
  match s with
  | "-"%char :: r => f r
  | _ => d
  end = if headb "-" s then f (tl s) else d.
Proof. intros T f d s. by_cases_on_char s. Qed.

Lemma dot_match : forall (T : Type) (f : list ascii -> T) (d : T) s,
  match s with
  | "."%char :: r => f r
  | _ => d
  end = if headb "." s then f (tl s) else d.
Proof. intros T f d s. by_cases_on_char s. Qed.

Lemma sign_match : forall (T : Type) (f g : list ascii -> T) (d : T) s,
  match s with
  | "-"%char :: r => f r
  | "+"%char :: r => g r
  | _ => d
  end = if headb "-" s then f (tl s)
        else if headb "+" s then g (tl s) else d.
Proof. intros T f g d s. by_cases_on_char s. Qed.


Lemma span_digits_spec : forall s ds r,
  span_digits s = (ds, r) ->
  s = ds ++ r /\ digits ds
  /\ match r with [] => True | c :: _ => is_digit c = false end.
Proof.
  induction s as [|c s IH]; intros ds r; cbn [span_digits].
  - intros E; inversion E; subst. repeat split.
  - destruct (is_digit c) eqn:Ec.
    + destruct (span_digits s) as [ds' r'].
      intros E; inversion E; subst.
      destruct (IH ds' r eq_refl) as [-> [Hd Hr]].
      repeat split; auto. unfold digits. cbn [forallb]. rewrite Ec. exact Hd.
    + intros E; inversion E; subst. repeat split. exact Ec.
Qed.

Lemma span_digits_app : forall ds r,
  digits ds ->
  match r with [] => True | c :: _ => is_digit c = false end ->
  span_digits (ds ++ r) = (ds, r).
Proof.
  induction ds as [|d ds IH]; intros r Hd Hr; cbn [app span_digits].
  - destruct r as [|c r]; [reflexivity|]. cbn [span_digits]. rewrite Hr. reflexivity.
  - unfold digits in Hd. cbn [forallb] in Hd. apply andb_true_iff in Hd.
    destruct Hd as [H1 H2]. rewrite H1, (IH r H2 Hr). reflexivity.
Qed.

Lemma span_digits_all : forall ds, digits ds -> span_digits ds = (ds, []).
Proof.
  intros ds H. rewrite <- (app_nil_r ds) at 1. apply span_digits_app; [exact H|exact I].
Qed.

Lemma digit_not_space : forall c, is_digit c = true -> is_space c = false.
Proof.
  intros c. unfold is_digit, is_space.
  destruct (48 <=? nat_of_ascii c)%nat eqn:E1; [|discriminate].
  destruct (nat_of_ascii c <=? 57)%nat eqn:E2; [|discriminate].
  intros _. apply Nat.leb_le in E1. apply Nat.leb_le in E2.
  assert (H1 : (nat_of_ascii c <=? 13)%nat = false) by (apply Nat.leb_gt; lia).
  assert (H2 : (nat_of_ascii c <=? 32)%nat = false) by (apply Nat.leb_gt; lia).
  rewrite H1, H2, !andb_false_r. reflexivity.
Qed.

(** A text without blanks is its own [strip]. *)
Lemma strip_no_space : forall s,
  forallb (fun c => negb (is_space c)) s = true -> strip s = s.
Proof.
  assert (L : forall s, forallb (fun c => negb (is_space c)) s = true -> lstrip s = s).
  { intros [|c s]; simpl; [reflexivity|].
    intros H. apply andb_true_iff in H. destruct H as [H _].
    apply negb_true_iff in H. rewrite H. reflexivity. }
  intros s H. unfold strip. rewrite (L s H).
  rewrite L; [apply rev_involutive|].
  apply forallb_forall. intros c Hc. apply in_rev in Hc.
  exact (proj1 (forallb_forall _ _) H c Hc).
Qed.

Lemma digits_no_space : forall ds,
  digits ds -> forallb (fun c => negb (is_space c)) ds = true.
Proof.
  intros ds H. apply forallb_forall. intros c Hc.
  apply negb_true_iff, digit_not_space.
  exact (proj1 (forallb_forall _ _) H c Hc).
Qed.

Lemma headb_digit : forall c ds r,
  is_digit c = false -> digits ds -> headb c r = false -> headb c (ds ++ r) = false.
Proof.
  intros c [|d ds] r Hc Hd Hr; [exact Hr|]. cbn [app headb].
  unfold digits in Hd. cbn [forallb] in Hd. apply andb_true_iff in Hd. destruct Hd as [Hd _].
  apply Ascii.eqb_neq. intros ->. congruence.
Qed.

Lemma headb_digits : forall c ds,
  is_digit c = false -> digits ds -> headb c ds = false.
Proof.
  intros c ds Hc Hd. rewrite <- (app_nil_r ds). apply headb_digit; auto.
Qed.

Lemma match_exponent_shape : forall s, exponent_text (match_exponent s).
Proof.
  intros [|c r]; [left; reflexivity|]. unfold match_exponent.
  destruct (Ascii.eqb c "e" || Ascii.eqb c "E") eqn:Ec; [|left; reflexivity].
  rewrite (sign_match _ (fun r' => (["-"%char], r')) (fun r' => (["+"%char], r'))
             ([], r)).
  assert (Hc : c = "e"%char \/ c = "E"%char).
  { apply orb_true_iff in Ec. destruct Ec as [E|E]; apply Ascii.eqb_eq in E; auto. }
  destruct (headb "-" r); [|destruct (headb "+" r)];
    match goal with
    | |- context [span_digits ?x] =>
        destruct (span_digits x) as [ed rest] eqn:Es;
        apply span_digits_spec in Es; destruct Es as [_ [Hd _]]
    end;
    (destruct ed as [|d ed]; [left; reflexivity|]); right.
  - exists c, ["-"%char], (d :: ed). repeat split; auto. discriminate.
  - exists c, ["+"%char], (d :: ed). repeat split; auto. discriminate.
  - exists c, [], (d :: ed). repeat split; auto. discriminate.
Qed.

Lemma exponent_head : forall ex,
  exponent_text ex ->
  match ex with [] => True | c :: _ => is_digit c = false end
  /\ headb "." ex = false
  /\ forallb (fun c => negb (is_space c)) ex = true.
Proof.
  intros ex [->|[c [sg [ed [-> [Hc [Hs [_ Hd]]]]]]]]; [repeat split|].
  assert (Hn := digits_no_space ed Hd).
  destruct Hc as [-> | ->]; destruct Hs as [->|[->| ->]]; simpl; rewrite ?Hn;
    repeat split.
Qed.

(** [float] accepts a sign, digits, an optional fraction with digits and
    an optional exponent. *)
Lemma float_accepts : forall neg ip frac ex,
  digits ip ->
  ((frac = [] /\ ip <> [])
   \/ exists fp, frac = "."%char :: fp /\ fp <> [] /\ digits fp) ->
  exponent_text ex ->
  Py.float ((if neg : bool then ["-"%char] else []) ++ ip ++ frac ++ ex) <> None.
Proof.
  intros neg ip frac ex Hip Hfrac Hex.
  destruct (exponent_head ex Hex) as [Hx1 [Hx2 Hx3]].
  assert (Hrest : match frac ++ ex with [] => True | c :: _ => is_digit c = false end).
  { destruct Hfrac as [[-> _]|[fp [-> _]]]; [exact Hx1 | reflexivity]. }
  assert (Hfs : forallb (fun c => negb (is_space c)) frac = true).
  { destruct Hfrac as [[-> _]|[fp [-> [_ Hf]]]]; [reflexivity|].
    simpl. apply digits_no_space. exact Hf. }
  assert (Hbody : forallb (fun c => negb (is_space c)) (ip ++ frac ++ ex) = true).
  { rewrite !forallb_app, (digits_no_space ip Hip), Hfs, Hx3. reflexivity. }
  assert (Hh : forall c, is_digit c = false -> c <> "."%char ->
                 c <> "e"%char -> c <> "E"%char ->
                 headb c (ip ++ frac ++ ex) = false).
  { intros c Hc H1 H2 H3. apply headb_digit; auto.
    destruct Hfrac as [[-> _]|[fp [-> _]]]; cbn [app headb].
    - destruct Hex as [->|[c' [sg [ed [-> [Hc' _]]]]]]; [reflexivity|].
      cbn [app headb].
      apply Ascii.eqb_neq. destruct Hc' as [-> | ->]; congruence.
    - apply Ascii.eqb_neq. congruence. }
  unfold Py.float.
  rewrite strip_no_space by (destruct neg; simpl; exact Hbody).
  rewrite (sign_match _ (fun r => (true, r)) (fun r => (false, r))
             (false, (if neg then ["-"%char] else []) ++ ip ++ frac ++ ex)).
  assert (E1 : (if headb "-" ((if neg then ["-"%char] else []) ++ ip ++ frac ++ ex)
                then (true, tl ((if neg then ["-"%char] else []) ++ ip ++ frac ++ ex))
                else if headb "+" ((if neg then ["-"%char] else []) ++ ip ++ frac ++ ex)
                     then (false, tl ((if neg then ["-"%char] else []) ++ ip ++ frac ++ ex))
                     else (false, (if neg then ["-"%char] else []) ++ ip ++ frac ++ ex))
               = (neg, ip ++ frac ++ ex)).
  { destruct neg; simpl; [reflexivity|].
    rewrite (Hh "-"%char), (Hh "+"%char) by (reflexivity || discriminate).
    reflexivity. }
  rewrite E1. rewrite (span_digits_app ip (frac ++ ex) Hip Hrest).
  rewrite (dot_match _ (fun r => let (f, r') := span_digits r in (f, r', true))
             ([], frac ++ ex, false)).
  destruct Hfrac as [[-> Hne]|[fp [-> [Hne Hf]]]]; simpl app.
  - rewrite Hx2. destruct ip as [|d ip]; [contradiction|]. cbn [is_nil andb].
    destruct Hex as [->|[c [sg [ed [-> [Hc [Hs [Hed Hd]]]]]]]]; [discriminate|].
    assert (Ec : Ascii.eqb c "e" || Ascii.eqb c "E" = true)
      by (destruct Hc as [-> | ->]; reflexivity).
    rewrite Ec.
    rewrite (sign_match _ (fun r => (true, r)) (fun r => (false, r)) (false, sg ++ ed)).
    assert (E2 : exists b,
              (if headb "-" (sg ++ ed) then (true, tl (sg ++ ed))
               else if headb "+" (sg ++ ed) then (false, tl (sg ++ ed))
                    else (false, sg ++ ed)) = (b, ed)).
    { destruct Hs as [->|[->| ->]].
      - cbn [app]. rewrite !headb_digits by (reflexivity || assumption). eauto.
      - exists true. reflexivity.
      - exists false. reflexivity. }
    destruct E2 as [b E2]. rewrite E2, (span_digits_all ed Hd).
    destruct ed as [|e ed]; [contradiction|]. simpl. destruct b; discriminate.
  - cbn [headb tl]. rewrite Ascii.eqb_refl.
    rewrite (span_digits_app fp ex Hf Hx1).
    destruct fp as [|f fp]; [contradiction|]. cbn [is_nil andb]. rewrite andb_false_r.
    destruct Hex as [->|[c [sg [ed [-> [Hc [Hs [Hed Hd]]]]]]]]; [discriminate|].
    assert (Ec : Ascii.eqb c "e" || Ascii.eqb c "E" = true)
      by (destruct Hc as [-> | ->]; reflexivity).
    rewrite Ec.
    rewrite (sign_match _ (fun r => (true, r)) (fun r => (false, r)) (false, sg ++ ed)).
    assert (E2 : exists b,
              (if headb "-" (sg ++ ed) then (true, tl (sg ++ ed))
               else if headb "+" (sg ++ ed) then (false, tl (sg ++ ed))
                    else (false, sg ++ ed)) = (b, ed)).
    { destruct Hs as [->|[->| ->]].
      - cbn [app]. rewrite !headb_digits by (reflexivity || assumption). eauto.
      - exists true. reflexivity.
      - exists false. reflexivity. }
    destruct E2 as [b E2]. rewrite E2, (span_digits_all ed Hd).
    destruct ed as [|e ed]; [contradiction|]. simpl. destruct b; discriminate.
Qed.

Lemma match_number_parses : forall s t,
  match_number s = Some t -> t <> [] /\ Py.float t <> None.
Proof.
  intros s t. unfold match_number.
  rewrite (minus_match _ (fun r => (["-"%char], r)) ([], s)).
  assert (Hs : exists neg : bool, exists s1,
            (if headb "-" s then (["-"%char], tl s) else ([], s))
            = ((if neg then ["-"%char] else []), s1)).
  { destruct (headb "-" s); [exists true | exists false]; eauto. }
  destruct Hs as [neg [s1 ->]].
  destruct (span_digits s1) as [ip s2] eqn:E1.
  apply span_digits_spec in E1. destruct E1 as [_ [Hip _]].
  rewrite (dot_match _ (fun s3 => let '(fp, s4) := span_digits s3 in
             if is_nil fp
             then (if is_nil ip then None
                   else Some ((if neg then ["-"%char] else []) ++ ip ++ match_exponent s2))
             else Some ((if neg then ["-"%char] else []) ++ ip
                          ++ "."%char :: fp ++ match_exponent s4))).
  assert (Hno : (if is_nil ip then None
                 else Some ((if neg then ["-"%char] else []) ++ ip ++ match_exponent s2))
                = Some t -> t <> [] /\ Py.float t <> None).
  { destruct ip as [|d ip]; [discriminate|]. simpl is_nil. cbv iota.
    intros E; inversion E; subst. split; [destruct neg; discriminate|].
    apply (float_accepts neg (d :: ip) [] (match_exponent s2)); auto.
    - left. split; [reflexivity | discriminate].
    - apply match_exponent_shape. }
  destruct (headb "." s2); [|exact Hno].
  destruct (span_digits (tl s2)) as [fp s4] eqn:E2.
  apply span_digits_spec in E2. destruct E2 as [_ [Hfp _]].
  destruct fp as [|f fp]; [exact Hno|]. simpl is_nil. cbv iota.
  intros E; inversion E; subst. split; [destruct neg, ip; discriminate|].
  apply (float_accepts neg ip ("."%char :: f :: fp) (match_exponent s4)); auto.
  - right. exists (f :: fp). repeat split; auto. discriminate.
  - apply match_exponent_shape.
Qed.

Lemma findall_parses : forall s skip,
  Forall (fun t => match t with
                   | TNum n => n <> [] /\ Py.float n <> None
                   | TCmd c => is_path_cmd c = true
                   end) (findall s skip).
Proof.
  induction s as [|c s IH]; intros skip; simpl; [constructor|].
  destruct skip as [|k]; [|apply IH].
  destruct (is_path_cmd c) eqn:Hc.
  - constructor; [exact Hc | apply IH].
  - destruct (match_number (c :: s)) as [t|] eqn:E; [|apply IH].
    constructor; [exact (match_number_parses _ _ E) | apply IH].
Qed.

End TokenFacts.

(** X4.  Every number token of the tokenizer is a literal that [float]
    accepts and every command token is one of the ten supported letters;
    so reading a number raises ValueError only when the token under the
    cursor is a command letter. *)
Theorem number_tokens_are_floats : forall d,
  Forall (fun t => match t with
                   | Path.TNum n => exists v, Py.float n = Some v
                   | Path.TCmd c => Path.is_path_cmd c = true
                   end) (Path.tokenize d)
  /\ forall st,
       Path.read_num (Path.tokenize d) st = Raise ValueError ->
       exists c, nth_error (Path.tokenize d) (Path.i st) = Some (Path.TCmd c).
Proof.
  intros d.
  pose proof (TokenFacts.findall_parses (Py.chars d) 0) as H.
  fold (Path.tokenize d) in H. split.
  - eapply Forall_impl; [|exact H].
    intros [c|n]; [auto|]. intros [_ Hf].
    destruct (Py.float n) as [v|]; [eauto | contradiction].
  - intros st. unfold Path.read_num.
    destruct (nth_error (Path.tokenize d) (Path.i st)) as [[c|n]|] eqn:E;
      [eauto | | discriminate].
    apply nth_error_In in E.
    apply (proj1 (Forall_forall _ _) H) in E. destruct E as [_ Hf].
    destruct (Py.float n); [discriminate | contradiction].
Qed.

Lemma number_tokens_are_floats_witness :
  exists c, nth_error (Path.tokenize "M 1 L") 2 = Some (Path.TCmd c).
Proof.
  destruct (number_tokens_are_floats "M 1 L") as [_ H].
  apply (H (Path.mkState 2 None 0 0 None [])). vm_compute. reflexivity.
Defined.

Module ExtensionFacts.
Import Py Svg.

Lemma startswith_app : forall p q, startswith p (p ++ q) = true.
Proof.
  induction p as [|a p IH]; intros q; simpl; [reflexivity|].
  rewrite Ascii.eqb_refl. apply IH.
Qed.

Lemma startswith_firstn : forall p s,
  startswith p s = true -> firstn (length p) s = p.
Proof.
  induction p as [|a p IH]; intros s; simpl; [reflexivity|].
  destruct s as [|b s]; [discriminate|].
  intros H. apply andb_true_iff in H. destruct H as [E H].
  apply Ascii.eqb_eq in E. subst b. rewrite (IH s H). reflexivity.
Qed.

Lemma ext_here_iff : forall s,
  ext_here s = true <->
  exists x tail, s = x ++ tail /\ In (lower x) raster_exts
                 /\ at_terminator tail = true.
Proof.
  intros s. unfold ext_here. rewrite existsb_exists. split.
  - intros [e [Hin H]]. apply andb_true_iff in H. destruct H as [H1 H2].
    exists (firstn (length e) s), (skipn (length e) s).
    split; [symmetry; apply firstn_skipn|]. split; [|exact H2].
    apply startswith_firstn in H1. unfold lower in *.
    rewrite <- firstn_map, H1. exact Hin.
  - intros [x [tail [-> [Hin Ht]]]]. exists (lower x). split; [exact Hin|].
    unfold lower at 2. rewrite map_app. fold (lower x) (lower tail).
    rewrite startswith_app. simpl.
    assert (L : length (lower x) = length x) by apply length_map.
    rewrite L, skipn_app, Nat.sub_diag, skipn_all. simpl. exact Ht.
Qed.

End ExtensionFacts.

(** X5.  The raster-extension test holds for an href exactly when it
    contains a dot followed by one of png, jpg, jpeg, gif, bmp, webp in
    any mix of upper and lower case, followed by the end of the text, a
    final newline, a question mark or a hash sign. *)
Theorem raster_extension_spec : forall s,
  Svg.raster_ext s = true <->
  exists before x tail,
    s = before ++ "."%char :: x ++ tail
    /\ In (Py.lower x) Svg.raster_exts
    /\ Svg.at_terminator tail = true.
Proof.
  induction s as [|c s IH]; simpl.
  - split; [discriminate|]. intros [[|b before] [x [tail [E _]]]]; discriminate.
  - rewrite orb_true_iff, andb_true_iff, IH, ExtensionFacts.ext_here_iff. split.
    + intros [[Ec [x [tail [-> H]]]]|[before [x [tail [-> H]]]]].
      * apply Ascii.eqb_eq in Ec. subst c. exists [], x, tail. auto.
      * exists (c :: before), x, tail. auto.
    + intros [[|b before] [x [tail [E H]]]]; simpl in E; inversion E; subst.
      * left. split; [apply Ascii.eqb_refl | eauto].
      * right. eauto.
Qed.

Lemma raster_extension_spec_witness :
  Svg.raster_ext (Py.chars "https://host/Photo.JPeG?size=2") = true.
Proof.
  apply raster_extension_spec.
  exists (Py.chars "https://host/Photo"), (Py.chars "JPeG"), (Py.chars "?size=2").
  split; [reflexivity|]. split; [|reflexivity].
  vm_compute. auto 10.
Defined.

Module ExtractFacts.




Lemma path_points_at_least_three : forall d pts,
  Path._path_to_linestring d = Ok (Some pts) -> (3 <= length pts)%nat.
Proof.
  intros d pts. unfold Path._path_to_linestring.
  destruct d as [|c d]; [discriminate|].
  destruct (Path.tokenize (String c d)) as [|t ts] eqn:Et; [discriminate|].
  rewrite <- Et.
  destruct (Path.run (Path.tokenize (String c d))
              (length (Path.tokenize (String c d))) Path.init) as [st| |];
    cbn [bind]; try discriminate.
  destruct (length (Path.pts st) <? 3)%nat eqn:E; [discriminate|].
  intros H; inversion H; subst. apply Nat.ltb_ge in E. exact E.
Qed.

Section Extract.
Variable G : GeomKernel.

Lemma element_geometry_raw : forall el g,
  element_geometry G el = Ok (Some g) -> raw_primitive g.
Proof.
  intros el g. unfold element_geometry.
  destruct (Svg.has_localname el "path").
  { destruct (Path._path_to_linestring (attr_text el "d")) as [[pts|]| |] eqn:E;
      simpl; try discriminate.
    intros H; inversion H; subst. simpl.
    exact (path_points_at_least_three _ _ E). }
  destruct (Svg.has_localname el "rect").
  { repeat match goal with
    | |- bind (attr_float ?e ?k) _ = _ -> _ =>
        destruct (attr_float e k); simpl; try discriminate
    end.
    destruct (Geom.Qltb 0 _ && Geom.Qltb 0 _); intros H; inversion H; exact I. }
  destruct (Svg.has_localname el "circle").
  { repeat match goal with
    | |- bind (attr_float ?e ?k) _ = _ -> _ =>
        destruct (attr_float e k); simpl; try discriminate
    end.
    destruct (Geom.Qltb 0 _); [|discriminate].
    destruct (point_buffer G _ _ _ _); simpl; intros H; inversion H; exact I. }
  destruct (Svg.has_localname el "ellipse").
  { repeat match goal with
    | |- bind (attr_float ?e ?k) _ = _ -> _ =>
        destruct (attr_float e k); simpl; try discriminate
    end.
    destruct (Geom.Qltb 0 _ && Geom.Qltb 0 _); [|discriminate].
    destruct (point_buffer G _ _ _ _); simpl; intros H; inversion H; exact I. }
  destruct (Svg.has_localname el "polygon" || Svg.has_localname el "polyline");
    [|cbn iota; discriminate].
  destruct (Svg._parse_points _) as [pts| |]; cbn [bind]; try discriminate.
  destruct (3 <=? length pts)%nat eqn:E; [|discriminate].
  apply Nat.leb_le in E.
  destruct (Svg.has_localname el "polyline"); intros H; inversion H; simpl; auto.
Qed.

Lemma collect_raw : forall els geoms,
  collect_geometry G els = Ok geoms ->
  Forall raw_primitive geoms /\ (length geoms <= length els)%nat.
Proof.
  induction els as [|el els IH]; intros geoms; simpl.
  - intros H; inversion H. split; [constructor | simpl; lia].
  - destruct (element_geometry G el) as [[g|]| |] eqn:E; simpl; try discriminate;
      destruct (collect_geometry G els) as [gs| |] eqn:Ec; simpl; try discriminate;
      destruct (IH gs eq_refl) as [F L]; intros H; inversion H; subst.
    + split; [constructor; [eapply element_geometry_raw; eauto | exact F]
             | simpl; lia].
    + split; [exact F | lia].
Qed.



End Extract.
End ExtractFacts.



(** X7.  What [_extract_geometry] returns: the parsed root, which holds no
    raster reference, and a non-empty list of primitives, each an open
    curve of at least three points or a polygon, at most one per
    element. *)
Theorem extractor_output_invariant : forall G svg root geoms,
  _extract_geometry G svg = Ok (root, geoms) ->
  svg = Some root
  /\ Svg._has_raster_images root = false
  /\ geoms <> []
  /\ Forall raw_primitive geoms
  /\ (length geoms <= length (Svg.iter root))%nat.
Proof.
  intros G svg root geoms. unfold _extract_geometry.
  destruct svg as [r|]; [|discriminate].
  destruct (Svg._has_raster_images r) eqn:Er; [discriminate|].
  destruct (collect_geometry G (Svg.iter r)) as [gs| |] eqn:Ec; simpl;
    try discriminate.
  destruct gs as [|g gs]; [discriminate|].
  intros H; inversion H; subst.
  destruct (ExtractFacts.collect_raw G _ _ Ec) as [F L].
  repeat split; auto. discriminate.
Qed.

Lemma extractor_output_invariant_witness :
  exists geoms,
    _extract_geometry Boxes.geom (Some Examples.stroke_drawing)
      = Ok (Examples.stroke_drawing, geoms)
    /\ Forall raw_primitive geoms.
Proof.
  eexists. split; [vm_compute; reflexivity|].
  eapply (extractor_output_invariant Boxes.geom (Some Examples.stroke_drawing)).
  vm_compute. reflexivity.
Defined.





Module StageFacts.

Lemma py_max_scale : forall f w h, 0 < f ->
  py_max (f * w) (f * h) == f * py_max w h.
Proof.
  intros f w h Hf.
  destruct (py_max_spec (f * w) (f * h)) as [[H1 E1]|[H1 E1]];
    destruct (py_max_spec w h) as [[H2 E2]|[H2 E2]]; rewrite E1, E2;
    try reflexivity; nra.
Qed.

Lemma py_max_compat : forall a b a' b', a == a' -> b == b' ->
  py_max a b == py_max a' b'.
Proof.
  intros a b a' b' Ha Hb.
  destruct (py_max_spec a b) as [[H1 E1]|[H1 E1]];
    destruct (py_max_spec a' b') as [[H2 E2]|[H2 E2]]; rewrite E1, E2; lra.
Qed.

Lemma filter_split_length : forall (A : Type) (f : A -> bool) l,
  (length (filter f l) + length (filter (fun a => negb (f a)) l) = length l)%nat.
Proof.
  intros A f l. induction l as [|a l IH]; simpl; [reflexivity|].
  destruct (f a); simpl; lia.
Qed.

Lemma remove_small_holes_warns : forall poly thr ws,
  exists hs, snd (_remove_small_holes poly thr ws) = ws ++ hs /\ hole_warnings hs.
Proof.
  intros poly thr ws. rewrite remove_small_holes_filter. simpl.
  destruct (length (filter _ (interiors poly))) as [|n].
  - exists []. rewrite app_nil_r. split; [reflexivity | constructor].
  - exists [HolesRemovedWarning (S n)]. split; [reflexivity|].
    constructor; [eauto | constructor].
Qed.

Lemma remove_holes_each_spec : forall ps ws,
  length (fst (remove_holes_each ps ws)) = length ps
  /\ exists hs, snd (remove_holes_each ps ws) = ws ++ hs /\ hole_warnings hs.
Proof.
  induction ps as [|p ps IH]; intros ws; simpl.
  - split; [reflexivity|]. exists []. rewrite app_nil_r. split; [reflexivity|constructor].
  - destruct (remove_small_holes_warns p min_hole_area ws) as [h1 [E1 H1]].
    destruct (_remove_small_holes p min_hole_area ws) as [p2 ws1]. simpl in E1.
    destruct (IH ws1) as [L [h2 [E2 H2]]].
    destruct (remove_holes_each ps ws1) as [rest ws2]. simpl in *.
    split; [lia|]. exists (h1 ++ h2). subst ws1 ws2.
    rewrite app_assoc. split; [reflexivity|]. apply Forall_app. auto.
Qed.

Lemma remove_small_holes_any_ws : forall poly thr ws1 ws2,
  fst (_remove_small_holes poly thr ws1) = fst (_remove_small_holes poly thr ws2).
Proof. intros. rewrite !remove_small_holes_filter. reflexivity. Qed.

Lemma remove_holes_each_any_ws : forall ps ws1 ws2,
  fst (remove_holes_each ps ws1) = fst (remove_holes_each ps ws2).
Proof.
  induction ps as [|p ps IH]; intros ws1 ws2; simpl; [reflexivity|].
  pose proof (remove_small_holes_any_ws p min_hole_area ws1 ws2) as E.
  destruct (_remove_small_holes p min_hole_area ws1) as [p1 w1].
  destruct (_remove_small_holes p min_hole_area ws2) as [p2 w2]. simpl in E. subst p2.
  specialize (IH w1 w2).
  destruct (remove_holes_each ps w1) as [r1 v1].
  destruct (remove_holes_each ps w2) as [r2 v2]. simpl in *. subst. reflexivity.
Qed.

Section Stages.
Variable G : GeomKernel.

Lemma clean_any_ws : forall geom ws1 ws2,
  outcome_geometry (_clean_geometry G geom ws1)
  = outcome_geometry (_clean_geometry G geom ws2).
Proof.
  intros geom ws1 ws2. unfold _clean_geometry, outcome_geometry.
  destruct (try_except (lift (make_valid G geom)) (fun _ => Ok geom)) as [v| |];
    cbn [bind]; try reflexivity.
  destruct (lift (unary_union G [v])) as [u| |]; cbn [bind]; try reflexivity.
  destruct (is_empty (ensure_multipolygon u)); [reflexivity|].
  destruct (ensure_multipolygon u); try reflexivity.
  cbn [bind]. f_equal. apply remove_holes_each_any_ws.
Qed.

Lemma normalize_any_ws : forall geom t ws1 ws2,
  outcome_geometry (_normalize_to_size geom t ws1)
  = outcome_geometry (_normalize_to_size geom t ws2).
Proof.
  intros geom t ws1 ws2. unfold _normalize_to_size, outcome_geometry.
  destruct (bounds geom) as [[[[a b] c] d]|]; [|reflexivity].
  destruct (Qle_bool (c - a) 0 || Qle_bool (d - b) 0); [reflexivity|].
  destruct (Qle_bool _ 0); [reflexivity|].
  destruct (bounds (shp_scale geom _ _ _)) as [[[[a2 b2] c2] d2]|]; reflexivity.
Qed.

(** The geometry that the enforcer returns for closed regions does not
    depend on the minimum line width. *)
Lemma buffer_closed_any_width : forall g m1 m2 ws1 ws2,
  (exists p, g = GPolygon p) \/ (exists ps, g = GMultiPolygon ps) ->
  outcome_geometry (_buffer_to_min_line G g m1 ws1)
  = outcome_geometry (_buffer_to_min_line G g m2 ws2).
Proof.
  intros g m1 m2 ws1 ws2 Hg. unfold _buffer_to_min_line, outcome_geometry.
  assert (E : forall m,
    match g with
    | GLineString _ =>
        bind (lift (buffer G g (half_width m) CapFlat JoinMitre)) (fun b => Ok [b])
    | GPolygon _ | GMultiPolygon _ => bind (buffer0 G g) (fun b => Ok [b])
    | GCollection _ =>
        try_except (bind (buffer0 G g) (fun b => Ok [b])) (fun _ => Ok [])
    end = bind (buffer0 G g) (fun b => Ok [b])).
  { intros m. destruct Hg as [[p ->]|[ps ->]]; reflexivity. }
  rewrite (E m1), (E m2).
  destruct (buffer0 G g) as [b| |]; cbn [bind]; try reflexivity.
  destruct (lift (unary_union G [b])) as [u| |]; cbn [bind]; try reflexivity.
  destruct (try_except (buffer0 G u) (fun _ => Ok u)) as [u2| |]; cbn [bind];
    try reflexivity.
  destruct (is_empty u2); reflexivity.
Qed.

Lemma unify_closed_any_width : forall raw m1 m2,
  Forall (fun g => exists p, g = GPolygon p) raw ->
  unify_to_polygons G raw m1 = unify_to_polygons G raw m2.
Proof.
  intros raw m1 m2 H. induction H as [|g raw [p ->] _ IH]; simpl; [reflexivity|].
  rewrite IH. reflexivity.
Qed.

End Stages.
Lemma clean_warnings : forall G geom ws out ws',
  _clean_geometry G geom ws = Ok (out, ws') ->
  exists hs, ws' = ws ++ hs /\ hole_warnings hs.
Proof.
  intros G geom ws out ws'. unfold _clean_geometry.
  destruct (try_except (lift (make_valid G geom)) (fun _ => Ok geom)) as [v| |];
    cbn [bind]; try discriminate.
  destruct (lift (unary_union G [v])) as [u| |]; cbn [bind]; try discriminate.
  destruct (is_empty (ensure_multipolygon u)); [discriminate|].
  destruct (ensure_multipolygon u) as [?|?|ps|?]; try discriminate.
  intros E. injection E as E.
  destruct (remove_holes_each_spec ps ws) as [_ [hs [Ew Hh]]].
  rewrite E in Ew. simpl in Ew. exists hs. auto.
Qed.

End StageFacts.

(** X10.  A geometry that [_normalize_to_size] returns fits the target
    exactly: the larger side of its bounding box equals the target size,
    which is positive, and the box is symmetric about the origin. *)
Theorem normalized_extent :
  forall geom target ws x0 y0 x1 y1 g' ws',
    bounds geom = Some (x0, y0, x1, y1) ->
    _normalize_to_size geom target ws = Ok (g', ws') ->
    0 < target
    /\ exists a b c d,
         bounds g' = Some (a, b, c, d)
         /\ py_max (c - a) (d - b) == target
         /\ a == - c /\ b == - d.
Proof.
  intros geom target ws x0 y0 x1 y1 g' ws' Hb.
  unfold _normalize_to_size. rewrite Hb.
  set (w := x1 - x0). set (h := y1 - y0). set (f := target / py_max w h).
  destruct (Qle_bool w 0) eqn:Ew; [discriminate|].
  destruct (Qle_bool h 0) eqn:Eh; [discriminate|]. cbn [orb].
  destruct (Qle_bool f 0) eqn:Ef; [discriminate|].
  apply Qle_bool_gt in Ew. apply Qle_bool_gt in Eh. apply Qle_bool_gt in Ef.
  assert (Hm : 0 < py_max w h).
  { destruct (py_max_spec w h) as [[_ E]|[_ E]]; rewrite E; assumption. }
  assert (Ht : target == f * py_max w h).
  { unfold f. field. lra. }
  assert (Hpos : 0 < target) by (rewrite Ht; nra).
  destruct (bounds_scale f geom _ _ _ _ Ef Hb)
    as [a2 [b2 [c2 [d2 [Es [Ha [Hb2 [Hc Hd]]]]]]]].
  rewrite Es.
  destruct (bounds_translate (- ((a2 + c2) / 2)) (- ((b2 + d2) / 2)) _ _ _ _ _ Es)
    as [a [b [c [d [Et [Ha' [Hb' [Hc' Hd']]]]]]]].
  intros E. inversion E; subst g' ws'. split; [exact Hpos|].
  exists a, b, c, d. split; [exact Et|].
  split; [|split].
  - rewrite Ht, <- StageFacts.py_max_scale by exact Ef.
    apply StageFacts.py_max_compat; unfold w, h;
      rewrite ?Ha', ?Hb', ?Hc', ?Hd', ?Ha, ?Hb2, ?Hc, ?Hd; field.
  - rewrite Ha', Hc'. field.
  - rewrite Hb', Hd'. field.
Qed.

Lemma normalized_extent_witness :
  exists g' ws' a b c d,
    _normalize_to_size (GPolygon (mkPolygon (Examples.square 0 0 10 4) [])) 30 []
      = Ok (g', ws')
    /\ bounds g' = Some (a, b, c, d)
    /\ py_max (c - a) (d - b) == 30.
Proof.
  destruct (_normalize_to_size (GPolygon (mkPolygon (Examples.square 0 0 10 4) [])) 30 [])
    as [[g' ws']| |] eqn:E; try (vm_compute in E; discriminate).
  destruct (normalized_extent
              (GPolygon (mkPolygon (Examples.square 0 0 10 4) [])) 30 []
              0 0 10 4 g' ws' eq_refl E)
    as [_ [a [b [c [d [Hb [Hm _]]]]]]].
  exists g', ws', a, b, c, d. auto.
Defined.

(** X11.  [_remove_small_holes] keeps the holes that reach the threshold, in
    their order, and counts the others: the warning is appended exactly
    when a hole was removed and carries the number of holes removed. *)
Theorem hole_removal_count : forall poly thr ws,
  let p2 := fst (_remove_small_holes poly thr ws) in
  let removed := (length (interiors poly) - length (interiors p2))%nat in
  interiors p2 = filter (big_enough thr) (interiors poly)
  /\ (length (interiors p2) <= length (interiors poly))%nat
  /\ snd (_remove_small_holes poly thr ws)
     = match removed with
       | O => ws
       | _ => ws ++ [HolesRemovedWarning removed]
       end.
Proof.
  intros poly thr ws p2 removed. unfold removed, p2.
  rewrite remove_small_holes_filter. simpl.
  pose proof (StageFacts.filter_split_length _ (big_enough thr) (interiors poly)) as L.
  split; [reflexivity|]. split; [lia|].
  replace (length (interiors poly) - length (filter (big_enough thr) (interiors poly)))%nat
    with (length (filter (fun r => negb (big_enough thr r)) (interiors poly))) by lia.
  destruct (length (filter (fun r => negb (big_enough thr r)) (interiors poly)));
    reflexivity.
Qed.

(** X12.  A region set that [_clean_geometry] returns is not empty and has
    no hole below the threshold; the warnings returned are the warnings
    it was given followed by hole warnings only, each for at least one
    removed hole. *)
Theorem clean_geometry_output : forall G geom ws out ws',
  _clean_geometry G geom ws = Ok (out, ws') ->
  out <> []
  /\ (forall p r, In p out -> In r (interiors p) -> min_hole_area <= ring_area r)
  /\ exists hs, ws' = ws ++ hs /\ hole_warnings hs.
Proof.
  intros G geom ws out ws'. unfold _clean_geometry.
  destruct (try_except (lift (make_valid G geom)) (fun _ => Ok geom)) as [v| |];
    cbn [bind]; try discriminate.
  destruct (lift (unary_union G [v])) as [u| |]; cbn [bind]; try discriminate.
  destruct (is_empty (ensure_multipolygon u)) eqn:Ee; [discriminate|].
  destruct (ensure_multipolygon u) as [?|?|ps|?]; try discriminate.
  intros E. injection E as E.
  pose proof (remove_holes_each_kept ps ws) as Hk.
  destruct (StageFacts.remove_holes_each_spec ps ws) as [L [hs [Ew Hh]]].
  rewrite E in *. simpl in *.
  split; [|split].
  - intros ->. destruct ps; [discriminate Ee | discriminate L].
  - intros p r Hp Hr. apply Qle_bool_iff. exact (Hk p r Hp Hr).
  - exists hs. auto.
Qed.

Lemma clean_geometry_output_witness :
  exists out ws',
    _clean_geometry Boxes.geom (GPolygon Examples.plate_two_holes) [] = Ok (out, ws')
    /\ out <> [].
Proof.
  destruct (_clean_geometry Boxes.geom (GPolygon Examples.plate_two_holes) [])
    as [[out ws']| |] eqn:E; try (vm_compute in E; discriminate).
  exists out, ws'. split; [reflexivity|].
  exact (proj1 (clean_geometry_output Boxes.geom _ [] out ws' E)).
Defined.

Module PipelineFacts.
Import StageFacts.

Lemma normalize_warning : forall geom t ws g ws',
  _normalize_to_size geom t ws = Ok (g, ws') ->
  (ws' = ws \/ ws' = ws ++ [ScaledDownWarning])
  /\ forall ps, geom = GMultiPolygon ps -> exists ps', g = GMultiPolygon ps'.
Proof.
  intros geom t ws g ws'. unfold _normalize_to_size.
  destruct (bounds geom) as [[[[a b] c] d]|].
  - destruct (Qle_bool (c - a) 0 || Qle_bool (d - b) 0); [discriminate|].
    destruct (Qle_bool _ 0); [discriminate|].
    destruct (bounds (shp_scale geom _ _ _)) as [[[[a2 b2] c2] d2]|];
      intros E; inversion E; subst; (split;
        [destruct (Qltb _ (1 # 2)); auto | intros ps ->; eexists; reflexivity]).
  - intros E; inversion E; subst. split; [auto | intros ps ->; eauto].
Qed.

Lemma buffer_warning : forall G geom m ws g ws',
  _buffer_to_min_line G geom m ws = Ok (g, ws') -> ws' = ws ++ width_warning m.
Proof.
  intros G geom m ws g ws'. unfold _buffer_to_min_line, width_warning.
  match goal with
  | |- bind ?x _ = _ -> _ => destruct x as [polys| |]; cbn [bind]; try discriminate
  end.
  match goal with
  | |- bind ?x _ = _ -> _ => destruct x as [u| |]; cbn [bind]; try discriminate
  end.
  match goal with
  | |- bind ?x _ = _ -> _ => destruct x as [u2| |]; cbn [bind]; try discriminate
  end.
  destruct (is_empty u2); [discriminate|].
  intros E; inversion E; subst.
  destruct (Qltb 1 (half_width m)); [reflexivity | rewrite app_nil_r; reflexivity].
Qed.

Lemma combine_warning : forall M md base relief height ws stamp ws',
  String.eqb md "raised" || String.eqb md "engraved" = true ->
  combine M md base relief height ws = Ok (stamp, ws') ->
  ws' = ws ++ scad_warning M md.
Proof.
  intros M md base relief height ws stamp ws' Hm. unfold combine, scad_warning.
  destruct (String.eqb md "raised").
  - destruct (scad_exists M).
    + destruct (boolean_union M [base; relief]); simpl; try discriminate.
      intros E; inversion E; subst. rewrite app_nil_r. reflexivity.
    + simpl. intros E; inversion E; subst. reflexivity.
  - destruct (scad_exists M).
    + destruct (boolean_difference M _); simpl; try discriminate.
      intros E; inversion E; subst. rewrite app_nil_r. reflexivity.
    + intros E; inversion E; subst. reflexivity.
Qed.

(** The warnings of the 2D stages. *)
Lemma relief_regions_warnings : forall G svg size min_line ps ws,
  relief_regions G svg size min_line = Ok (ps, ws) ->
  exists h1 sc h2,
    ws = h1 ++ sc ++ width_warning min_line ++ h2
    /\ hole_warnings h1 /\ (sc = [] \/ sc = [ScaledDownWarning])
    /\ hole_warnings h2.
Proof.
  intros G svg size min_line ps ws. unfold relief_regions.
  destruct (_extract_geometry G svg) as [[root raw]| |]; cbn [bind]; try discriminate.
  destruct (unify_to_polygons G raw min_line) as [conv| |]; cbn [bind];
    try discriminate.
  destruct (lift (unary_union G conv)) as [g0| |]; cbn [bind]; try discriminate.
  destruct (_clean_geometry G g0 []) as [[ps1 ws1]| |] eqn:E1; cbn [bind];
    try discriminate.
  destruct (_normalize_to_size (GMultiPolygon ps1) size ws1) as [[g2 ws2]| |] eqn:E2;
    cbn [bind]; try discriminate.
  destruct (_buffer_to_min_line G g2 min_line ws2) as [[g3 ws3]| |] eqn:E3;
    cbn [bind]; try discriminate.
  intros E4.
  apply clean_warnings in E1. destruct E1 as [h1 [-> H1]].
  apply normalize_warning in E2. destruct E2 as [E2 _].
  apply buffer_warning in E3. subst ws3.
  apply clean_warnings in E4. destruct E4 as [h2 [-> H2]]. simpl in *.
  destruct E2 as [->| ->].
  - exists h1, [], h2. simpl. rewrite <- !app_assoc. auto.
  - exists h1, [ScaledDownWarning], h2. rewrite <- !app_assoc. simpl. auto.
Qed.

Lemma valid_mode_no_mode_error :
  forall G M svg size base relief min_line mode_arg,
    String.eqb (normalize_mode mode_arg) "raised"
      || String.eqb (normalize_mode mode_arg) "engraved" = true ->
    convert_svg_to_stl G M svg size base relief min_line mode_arg
      <> Raise (ConvertError InvalidMode).
Proof.
  intros G M svg size base relief min_line mode_arg Hm.
  unfold convert_svg_to_stl. rewrite Hm. cbn [negb].
  pose proof (relief_regions_only G svg size min_line) as Hr.
  destruct (relief_regions G svg size min_line) as [[ps ws]|e|]; cbn [bind];
    [| intros E; inversion E; subst e; discriminate Hr | discriminate].
  pose proof (relief_volume_only M ps base relief) as Hv.
  destruct (relief_volume M ps base relief) as [rm|e|]; cbn [bind];
    [| intros E; inversion E; subst e; discriminate Hv | discriminate].
  pose proof (combine_never_invalid_mode M (normalize_mode mode_arg)
                (base_slab M size base) rm relief ws) as Hc.
  destruct (combine M (normalize_mode mode_arg) (base_slab M size base) rm relief ws)
    as [[stamp ws2]|e|]; cbn [bind];
    [| intros E; inversion E; subst e; discriminate Hc | discriminate].
  destruct (mesh_is_empty M stamp); [discriminate|].
  destruct (mesh_bounds M (process M stamp)) as [[[? ?] ?] [[? ?] ?]]. discriminate.
Qed.

Lemma floats_return : forall l, Svg.floats l <> Diverge.
Proof.
  induction l as [|s l IH]; simpl; [discriminate|].
  destruct (Py.float s); [|discriminate].
  destruct (Svg.floats l); simpl; congruence.
Qed.

Lemma attr_float_returns : forall el key, attr_float el key <> Diverge.
Proof.
  intros el key. unfold attr_float.
  destruct (Svg.get el key); [destruct (Py.float _)|]; discriminate.
Qed.

Section Hang.
Variable G : GeomKernel.

Lemma element_hang : forall el,
  element_geometry G el = Diverge ->
  Svg.has_localname el "path" = true
  /\ Path._path_to_linestring (attr_text el "d") = Diverge.
Proof.
  intros el. unfold element_geometry.
  destruct (Svg.has_localname el "path").
  { destruct (Path._path_to_linestring (attr_text el "d")); simpl;
      try discriminate. auto. }
  repeat match goal with
  | |- (if ?b then _ else _) = _ -> _ => destruct b
  | |- bind (attr_float ?e ?k) _ = _ -> _ =>
      let H := fresh in
      pose proof (attr_float_returns e k) as H;
      destruct (attr_float e k); cbn [bind]; try discriminate; try congruence
  | |- bind (lift ?o) _ = _ -> _ => destruct o; simpl; try discriminate
  end; try discriminate.
  unfold Svg._parse_points.
  pose proof (floats_return (Svg.fields (Py.strip (Py.chars (attr_text el "points"))) []))
    as H.
  destruct (Svg.floats _); cbn [bind]; try discriminate; try congruence.
  destruct (3 <=? _)%nat; [destruct (Svg.has_localname el "polyline")|]; discriminate.
Qed.

Lemma collect_hang : forall els,
  collect_geometry G els = Diverge ->
  exists el, In el els /\ element_geometry G el = Diverge.
Proof.
  induction els as [|el els IH]; simpl; [discriminate|].
  destruct (element_geometry G el) as [g| |] eqn:E; cbn [bind]; try discriminate.
  - destruct (collect_geometry G els); cbn [bind]; try discriminate.
    intros _. destruct (IH eq_refl) as [e [Hin He]]. exists e. auto.
  - intros _. exists el. auto.
Qed.

Lemma unify_returns : forall raw m, unify_to_polygons G raw m <> Diverge.
Proof.
  induction raw as [|g raw IH]; intros m; simpl; [discriminate|].
  specialize (IH m).
  destruct g; unfold buffer0;
    repeat match goal with
    | |- context [lift ?o] => destruct o; simpl
    end;
    destruct (unify_to_polygons G raw m); simpl; congruence.
Qed.

Lemma clean_returns : forall geom ws, _clean_geometry G geom ws <> Diverge.
Proof.
  intros geom ws. unfold _clean_geometry.
  destruct (make_valid G geom); simpl;
    (match goal with |- context [lift ?o] => destruct o; simpl end;
     [|discriminate]);
    (match goal with |- context [is_empty ?g] => destruct (is_empty g) end;
     [discriminate|]);
    match goal with
    | |- context [match ?g with GLineString _ => _ | _ => _ end] => destruct g
    end; discriminate.
Qed.

Lemma normalize_returns : forall geom t ws, _normalize_to_size geom t ws <> Diverge.
Proof.
  intros geom t ws. unfold _normalize_to_size.
  destruct (bounds geom) as [[[[a b] c] d]|]; [|discriminate].
  destruct (Qle_bool (c - a) 0 || Qle_bool (d - b) 0); [discriminate|].
  destruct (Qle_bool _ 0); [discriminate|].
  destruct (bounds (shp_scale geom _ _ _)) as [[[[a2 b2] c2] d2]|]; discriminate.
Qed.

Lemma buffer_returns : forall geom m ws, _buffer_to_min_line G geom m ws <> Diverge.
Proof.
  intros geom m ws. unfold _buffer_to_min_line, buffer0.
  destruct geom;
    repeat match goal with
    | |- context [lift ?o] => destruct o; simpl
    | |- context [is_empty ?g] => destruct (is_empty g)
    end; discriminate.
Qed.

Lemma relief_regions_hang : forall svg size min_line,
  relief_regions G svg size min_line = Diverge ->
  exists root el,
    svg = Some root /\ In el (Svg.iter root)
    /\ Svg.has_localname el "path" = true
    /\ Path._path_to_linestring (attr_text el "d") = Diverge.
Proof.
  intros svg size min_line. unfold relief_regions.
  destruct (_extract_geometry G svg) as [[root raw]| |] eqn:Ex; cbn [bind];
    try discriminate.
  - pose proof (unify_returns raw min_line) as H1.
    destruct (unify_to_polygons G raw min_line) as [conv| |]; cbn [bind];
      try discriminate; try congruence.
    destruct (unary_union G conv) as [g0|]; simpl; try discriminate.
    pose proof (clean_returns g0 []) as H2.
    destruct (_clean_geometry G g0 []) as [[ps1 ws1]| |]; cbn [bind];
      try discriminate; try congruence.
    pose proof (normalize_returns (GMultiPolygon ps1) size ws1) as H3.
    destruct (_normalize_to_size (GMultiPolygon ps1) size ws1) as [[g2 ws2]| |];
      cbn [bind]; try discriminate; try congruence.
    pose proof (buffer_returns g2 min_line ws2) as H4.
    destruct (_buffer_to_min_line G g2 min_line ws2) as [[g3 ws3]| |]; cbn [bind];
      try discriminate; try congruence.
    intros H. exfalso. exact (clean_returns g3 ws3 H).
  - intros _. unfold _extract_geometry in Ex.
    destruct svg as [root|]; [|discriminate].
    destruct (Svg._has_raster_images root); [discriminate|].
    destruct (collect_geometry G (Svg.iter root)) as [[|g gs]| |] eqn:Ec;
      try discriminate.
    destruct (collect_hang _ Ec) as [el [Hin He]].
    apply element_hang in He. destruct He as [Hp Hd].
    exists root, el. auto.
Qed.

End Hang.

Lemma message_injective : forall e1 e2, message e1 = message e2 -> e1 = e2.
Proof.
  intros e1 e2. destruct e1; destruct e2; intros H; try reflexivity;
    vm_compute in H; discriminate H.
Qed.

End PipelineFacts.

(** X13.  For a drawing made of closed shapes only, the regions of the relief
    do not depend on the minimum line width: it widens strokes, never
    polygons. *)
Theorem closed_shapes_ignore_min_line :
  forall G svg size m1 m2 root raw,
    _extract_geometry G svg = Ok (root, raw) ->
    Forall (fun g => exists p, g = GPolygon p) raw ->
    outcome_geometry (relief_regions G svg size m1)
    = outcome_geometry (relief_regions G svg size m2).
Proof.
  intros G svg size m1 m2 root raw Hx Hraw. unfold relief_regions.
  rewrite Hx. cbn [bind].
  rewrite (StageFacts.unify_closed_any_width G raw m1 m2 Hraw).
  destruct (unify_to_polygons G raw m2) as [conv| |]; cbn [bind]; try reflexivity.
  destruct (lift (unary_union G conv)) as [g0| |]; cbn [bind]; try reflexivity.
  destruct (_clean_geometry G g0 []) as [[ps1 ws1]| |]; cbn [bind]; try reflexivity.
  destruct (_normalize_to_size (GMultiPolygon ps1) size ws1) as [[g2 ws2]| |] eqn:En;
    cbn [bind]; try reflexivity.
  apply PipelineFacts.normalize_warning in En. destruct En as [_ Hg].
  destruct (Hg ps1 eq_refl) as [ps2 ->].
  pose proof (StageFacts.buffer_closed_any_width G (GMultiPolygon ps2) m1 m2 ws2 ws2
                (or_intror (ex_intro _ ps2 eq_refl))) as Hb.
  unfold outcome_geometry in *.
  destruct (_buffer_to_min_line G (GMultiPolygon ps2) m1 ws2) as [[ga wa]| |];
    destruct (_buffer_to_min_line G (GMultiPolygon ps2) m2 ws2) as [[gb wb]| |];
    cbn [bind] in *; try discriminate Hb; try reflexivity.
  - injection Hb as ->. apply (StageFacts.clean_any_ws G gb wa wb).
  - injection Hb as ->. reflexivity.
Qed.

Lemma closed_shapes_ignore_min_line_witness :
  outcome_geometry (relief_regions Boxes.geom (Some Examples.square_drawing) 30 (4 # 10))
  = outcome_geometry (relief_regions Boxes.geom (Some Examples.square_drawing) 30 4).
Proof.
  eapply (closed_shapes_ignore_min_line Boxes.geom (Some Examples.square_drawing)).
  - vm_compute. reflexivity.
  - constructor; [eexists; reflexivity | constructor].
Defined.

(** X14.  The warnings of a successful conversion are, in this order: the
    hole warnings of the first clean-up, the scale-down warning if any,
    the large-line-width warning exactly when the half-width exceeds 1,
    the hole warnings of the second clean-up, and the missing-OpenSCAD
    warning of the mode exactly when OpenSCAD is absent. *)
Theorem warnings_of_a_conversion :
  forall G M svg size base relief min_line mode_arg rep stamp,
    convert_svg_to_stl G M svg size base relief min_line mode_arg = Ok (rep, stamp) ->
    exists h1 sc h2,
      warnings rep
        = h1 ++ sc ++ width_warning min_line ++ h2
             ++ scad_warning M (normalize_mode mode_arg)
      /\ hole_warnings h1 /\ (sc = [] \/ sc = [ScaledDownWarning])
      /\ hole_warnings h2.
Proof.
  intros G M svg size base relief min_line mode_arg rep stamp.
  unfold convert_svg_to_stl.
  destruct (relief_regions G svg size min_line) as [[ps ws]| |] eqn:Er; cbn [bind];
    try discriminate.
  destruct (relief_volume M ps base relief) as [rm| |]; cbn [bind]; try discriminate.
  destruct (String.eqb (normalize_mode mode_arg) "raised"
            || String.eqb (normalize_mode mode_arg) "engraved") eqn:Em;
    [|discriminate]. cbn [negb].
  destruct (combine M (normalize_mode mode_arg) (base_slab M size base) rm relief ws)
    as [[s0 ws2]| |] eqn:Ec; cbn [bind]; try discriminate.
  destruct (mesh_is_empty M s0); [discriminate|].
  destruct (mesh_bounds M (process M s0)) as [[[a b] c] [[a' b'] c']].
  intros E. inversion E; subst rep stamp. simpl.
  apply PipelineFacts.combine_warning in Ec; [|exact Em]. subst ws2.
  destruct (PipelineFacts.relief_regions_warnings G svg size min_line ps ws Er)
    as [h1 [sc [h2 [-> [H1 [Hs H2]]]]]].
  exists h1, sc, h2. rewrite <- !app_assoc. auto.
Qed.

Lemma warnings_of_a_conversion_witness :
  exists rep stamp,
    convert_svg_to_stl Boxes.geom (Boxes.mesh false true)
      (Some Examples.stroke_drawing) 30 7 (22 # 10) 6 (Some "raised"%string)
    = Ok (rep, stamp)
    /\ warnings rep = [LargeMinLineWarning; NoScadRaisedWarning].
Proof.
  destruct (convert_svg_to_stl Boxes.geom (Boxes.mesh false true)
              (Some Examples.stroke_drawing) 30 7 (22 # 10) 6 (Some "raised"%string))
    as [[rep stamp]| |] eqn:E; try (vm_compute in E; discriminate).
  exists rep, stamp. split; [reflexivity|].
  destruct (warnings_of_a_conversion _ _ _ _ _ _ _ _ _ _ E) as [h1 [sc [h2 _]]].
  vm_compute in E. injection E as <- _. reflexivity.
Defined.

(** X15.  The report of a successful conversion echoes the size and heights
    it was given, names the mode in lower case, which is ['raised'] or
    ['engraved'], carries the horizontal bounds of the exported mesh and
    the total area of the final regions; the exported mesh is the clean-up
    of a non-empty mesh. *)
Theorem report_of_a_conversion :
  forall G M svg size base relief min_line mode_arg rep stamp,
    convert_svg_to_stl G M svg size base relief min_line mode_arg = Ok (rep, stamp) ->
    size_mm rep = size /\ base_mm rep = base /\ relief_mm rep = relief
    /\ mode rep = normalize_mode mode_arg
    /\ (mode rep = "raised"%string \/ mode rep = "engraved"%string)
    /\ (let '((x0, y0, _), (x1, y1, _)) := mesh_bounds M stamp in
        bbox_mm rep = (x0, y0, x1, y1))
    /\ (exists ps ws, relief_regions G svg size min_line = Ok (ps, ws)
                      /\ approx_area_mm2 rep = Qsum (map area ps))
    /\ exists raw_mesh, stamp = process M raw_mesh /\ mesh_is_empty M raw_mesh = false.
Proof.
  intros G M svg size base relief min_line mode_arg rep stamp.
  unfold convert_svg_to_stl.
  destruct (relief_regions G svg size min_line) as [[ps ws]| |]; cbn [bind];
    try discriminate.
  destruct (relief_volume M ps base relief) as [rm| |]; cbn [bind]; try discriminate.
  destruct (String.eqb (normalize_mode mode_arg) "raised") eqn:E1;
    destruct (String.eqb (normalize_mode mode_arg) "engraved") eqn:E2;
    cbn [orb negb]; try discriminate;
    (destruct (combine M (normalize_mode mode_arg) (base_slab M size base) rm relief ws)
       as [[s0 ws2]| |]; cbn [bind]; try discriminate;
     destruct (mesh_is_empty M s0) eqn:Ee; [discriminate|];
     destruct (mesh_bounds M (process M s0)) as [[[a b] c] [[a' b'] c']] eqn:Eb;
     intros E; inversion E; subst rep stamp; simpl; rewrite Eb;
     repeat split; eauto).
  - left. apply String.eqb_eq. exact E1.
  - left. apply String.eqb_eq. exact E1.
  - right. apply String.eqb_eq. exact E2.
Qed.

Lemma report_of_a_conversion_witness :
  exists rep stamp,
    convert_svg_to_stl Boxes.geom (Boxes.mesh false true)
      (Some Examples.square_drawing) 30 7 (22 # 10) (14 # 10) (Some "RAISED"%string)
    = Ok (rep, stamp)
    /\ mode rep = "raised"%string.
Proof.
  destruct (convert_svg_to_stl Boxes.geom (Boxes.mesh false true)
              (Some Examples.square_drawing) 30 7 (22 # 10) (14 # 10)
              (Some "RAISED"%string))
    as [[rep stamp]| |] eqn:E; try (vm_compute in E; discriminate).
  exists rep, stamp. split; [reflexivity|].
  destruct (report_of_a_conversion _ _ _ _ _ _ _ _ _ _ E) as [_ [_ [_ [Hm _]]]].
  rewrite Hm. reflexivity.
Defined.

(** X16.  In raised mode with OpenSCAD the exported mesh is the clean-up of
    the boolean union of the slab and the relief volume and no warning is
    added; if the engine raises, that exception escapes the pipeline.
    Without OpenSCAD the exported mesh is the clean-up of the two meshes
    concatenated and the multi-solid warning is appended. *)
Theorem raised_output_spec :
  forall G M svg size base relief min_line mode_arg ps ws relief_mesh,
    normalize_mode mode_arg = "raised"%string ->
    relief_regions G svg size min_line = Ok (ps, ws) ->
    relief_volume M ps base relief = Ok relief_mesh ->
    let slab := base_slab M size base in
    let run := convert_svg_to_stl G M svg size base relief min_line mode_arg in
    (scad_exists M = true ->
     (forall u, boolean_union M [slab; relief_mesh] = Some u ->
                mesh_is_empty M u = false ->
        exists rep, run = Ok (rep, process M u) /\ warnings rep = ws)
     /\ (boolean_union M [slab; relief_mesh] = None -> run = Raise LibraryError))
    /\ (scad_exists M = false ->
        mesh_is_empty M (concatenate M [slab; relief_mesh]) = false ->
        exists rep, run = Ok (rep, process M (concatenate M [slab; relief_mesh]))
                    /\ warnings rep = ws ++ [NoScadRaisedWarning]).
Proof.
  intros G M svg size base relief min_line mode_arg ps ws relief_mesh
         Hmode Hregions Hvolume slab run.
  unfold run, convert_svg_to_stl. rewrite Hregions. cbn [bind].
  rewrite Hvolume. cbn [bind]. rewrite Hmode. simpl. unfold combine. simpl.
  fold slab. split.
  - intros Hscad. rewrite Hscad. split.
    + intros u Hu Hne. rewrite Hu. simpl. rewrite Hne.
      destruct (mesh_bounds M (process M u)) as [[[a b] c] [[a' b'] c']].
      eexists. split; reflexivity.
    + intros Hu. rewrite Hu. reflexivity.
  - intros Hscad Hne. rewrite Hscad. simpl. rewrite Hne.
    destruct (mesh_bounds M (process M _)) as [[[a b] c] [[a' b'] c']].
    eexists. split; reflexivity.
Qed.

Lemma raised_output_spec_witness :
  exists rep stamp,
    convert_svg_to_stl Boxes.geom (Boxes.mesh false true)
      (Some Examples.square_drawing) 30 7 (22 # 10) (14 # 10) (Some "raised"%string)
    = Ok (rep, stamp)
    /\ warnings rep = [NoScadRaisedWarning]
    /\ mesh_height (Boxes.mesh false true) stamp == 92 # 10.
Proof.
  destruct (relief_regions Boxes.geom (Some Examples.square_drawing) 30 (14 # 10))
    as [[ps ws]| |] eqn:Hr; try (vm_compute in Hr; discriminate).
  destruct (relief_volume (Boxes.mesh false true) ps 7 (22 # 10))
    as [rm| |] eqn:Hv;
    try (vm_compute in Hr; injection Hr as <- <-; vm_compute in Hv; discriminate).
  destruct (raised_output_spec Boxes.geom (Boxes.mesh false true)
              (Some Examples.square_drawing) 30 7 (22 # 10) (14 # 10)
              (Some "raised"%string) ps ws rm eq_refl Hr Hv) as [_ H].
  destruct H as [rep [E Hw]]; [reflexivity | |].
  - vm_compute in Hr; injection Hr as <- <-; vm_compute in Hv; injection Hv as <-.
    reflexivity.
  - eexists. eexists. split; [exact E|].
    vm_compute in Hr; injection Hr as <- <-; vm_compute in Hv; injection Hv as <-.
    split; [rewrite Hw; reflexivity | vm_compute; reflexivity].
Defined.



(** X18.  Behind the declared query constraints the handler's own mode check
    never fires, and the pipeline's mode error never reaches a client:
    [generate] answers no request with either text. *)
Theorem mode_errors_never_reach_the_client : forall G M r,
  Backend.generate (convert_svg_to_stl G M) r
    <> Backend.HttpError 400 "Invalid mode. Allowed: raised, engraved."
  /\ Backend.generate (convert_svg_to_stl G M) r
     <> Backend.HttpError 400 (message InvalidMode).
Proof.
  intros G M r. unfold Backend.generate.
  destruct (Backend.query_ok r) eqn:Eq; cbn [negb]; [|split; discriminate].
  destruct (existsb (Z.eqb (Backend.q_size_mm r)) Backend.ALLOWED_SIZES);
    cbn [negb]; [|split; discriminate].
  assert (Em : existsb (String.eqb (Backend.q_mode r)) Backend.ALLOWED_MODES = true).
  { unfold Backend.query_ok in Eq.
    repeat (apply andb_true_iff in Eq; destruct Eq as [Eq _]). exact Eq. }
  rewrite Em. cbn [negb].
  destruct (Backend.endswith _ _); cbn [negb]; [|split; discriminate].
  destruct (Backend.body_size r <? 50)%nat; [split; discriminate|].
  assert (Hv : String.eqb (normalize_mode (Some (Backend.q_mode r))) "raised"
               || String.eqb (normalize_mode (Some (Backend.q_mode r))) "engraved"
               = true).
  { simpl in Em. rewrite orb_false_r in Em. apply orb_true_iff in Em.
    destruct Em as [E|E]; apply String.eqb_eq in E; rewrite E; reflexivity. }
  pose proof (PipelineFacts.valid_mode_no_mode_error G M (Backend.body r)
                (inject_Z (Backend.q_size_mm r)) (Backend.q_base_mm r)
                (Backend.q_relief_mm r) (Backend.q_min_line_mm r)
                (Some (Backend.q_mode r)) Hv) as Hn.
  destruct (convert_svg_to_stl G M _ _ _ _ _ _) as [a|[c| | | |]|];
    try (split; discriminate).
  split; intros H; injection H as H.
  - destruct c; vm_compute in H; discriminate H.
  - apply (PipelineFacts.message_injective c InvalidMode) in H. subst c.
    apply Hn. reflexivity.
Qed.

(** X19.  As long as the calls into shapely and trimesh return, the
    pipeline returns or raises in finitely many steps unless the drawing
    has a path element in which a close-path command is directly followed
    by a number. *)
Theorem conversion_hangs_only_in_a_path :
  forall G M svg size base relief min_line mode_arg,
    convert_svg_to_stl G M svg size base relief min_line mode_arg = Diverge ->
    exists root el,
      svg = Some root /\ In el (Svg.iter root)
      /\ Svg.has_localname el "path" = true
      /\ number_after_close (Path.tokenize (attr_text el "d")).
Proof.
  intros G M svg size base relief min_line mode_arg. unfold convert_svg_to_stl.
  destruct (relief_regions G svg size min_line) as [[ps ws]| |] eqn:Er; cbn [bind];
    try discriminate.
  - pose proof (MeshFacts.extrude_returns M base relief ps) as Hx.
    unfold relief_volume.
    destruct (extrude_regions M ps base relief) as [[|m ms]| |]; cbn [bind];
      try discriminate; try congruence.
    destruct (negb _); [discriminate|].
    unfold combine.
    repeat match goal with
    | |- context [if ?b then _ else _] => destruct b; simpl
    | |- context [lift ?o] => destruct o; simpl
    | |- context [let '(_, _) := ?p in _] => destruct p as [[[? ?] ?] [[? ?] ?]]
    end; discriminate.
  - intros _.
    destruct (PipelineFacts.relief_regions_hang G svg size min_line Er)
      as [root [el [Hs [Hin [Hp Hd]]]]].
    exists root, el. repeat split; auto.
    apply PathTermination.hang_pattern. exact Hd.
Qed.

Lemma conversion_hangs_only_in_a_path_witness :
  exists el,
    In el (Svg.iter (Examples.drawing [Examples.path "M 0 0 L 1 1 Z 5"]))
    /\ number_after_close (Path.tokenize (attr_text el "d")).
Proof.
  destruct (conversion_hangs_only_in_a_path Boxes.geom (Boxes.mesh false true)
              (Some (Examples.drawing [Examples.path "M 0 0 L 1 1 Z 5"]))
              30 7 (22 # 10) (14 # 10) None)
    as [root [el [Hs [Hin [_ Hn]]]]]; [vm_compute; reflexivity|].
  injection Hs as <-. exists el. auto.
Defined.
